(** * Byte-pair-encoding tokenizer of [lectures/01-tokenization.ipynb]

    A shallow embedding of [merge], [train_bpe] and [BPETokenizer] and the
    properties they satisfy.

    Conventions.
    - A Python [int] is a [Z]; a list index is a [nat].
    - [bytes] is a list of integers, each in [0,256).
    - [str] is a list of Unicode code points (Python strings may hold lone
      surrogates, which [str.encode] refuses).
    - A [dict] is an insertion-ordered association list: assigning to a key
      that is present replaces its value in place, assigning to a fresh key
      appends an entry; iteration follows the list.
    - A call that may raise returns a [result]. *)

From Equations Require Import Equations.
From Stdlib Require Import ZArith List Bool Arith Lia.
From Stdlib Require String Ascii.
Import String.StringSyntax.
Delimit Scope string_scope with string.
Import ListNotations.
Local Open Scope Z_scope.

(* [simpl] must leave sums such as [256 + i] alone. *)
#[local] Arguments Z.add : simpl never.

(** ** Exceptions *)

Inductive exn : Type :=
| ValueError          (* max() of an empty iterable *)
| KeyError            (* d[k] with k missing *)
| TypeError           (* b"".join over a list holding None *)
| UnicodeEncodeError  (* str.encode("utf-8") on a surrogate *)
| UnicodeDecodeError. (* bytes.decode("utf-8") on ill-formed input *)

Inductive result (A : Type) : Type :=
| Ok (a : A)
| Raise (e : exn).
Arguments Ok {A} a.
Arguments Raise {A} e.

Definition bind {A B} (r : result A) (k : A -> result B) : result B :=
  match r with
  | Ok a => k a
  | Raise e => Raise e
  end.

Notation "x <- r ;; k" := (bind r (fun x => k))
  (at level 61, r at next level, right associativity).

Definition of_option {A} (e : exn) (o : option A) : result A :=
  match o with
  | Some a => Ok a
  | None => Raise e
  end.

(** ** Keys with a boolean equality *)

Class PyEq (K : Type) := key_eqb : K -> K -> bool.

Definition pair_eqb (p q : Z * Z) : bool :=
  (fst p =? fst q) && (snd p =? snd q).

#[export] Instance PyEq_Z : PyEq Z := Z.eqb.
#[export] Instance PyEq_pair : PyEq (Z * Z) := pair_eqb.

(** ** Insertion-ordered dictionaries *)

Module Dict.
Section Ops.
Context {K V : Type} `{PyEq K}.

Definition t := list (K * V).

Definition empty : t := [].

(** [d.get(k)] *)
Fixpoint get (d : t) (k : K) : option V :=
  match d with
  | [] => None
  | (k', v) :: r => if key_eqb k' k then Some v else get r k
  end.

(** [d[k] = v] *)
Fixpoint set (d : t) (k : K) (v : V) : t :=
  match d with
  | [] => [(k, v)]
  | (k', v') :: r =>
      if key_eqb k' k then (k', v) :: r else (k', v') :: set r k v
  end.

(** [d[k]] *)
Definition getitem (d : t) (k : K) : result V := of_option KeyError (get d k).

Definition keys (d : t) : list K := map fst d.
Definition values (d : t) : list V := map snd d.
Definition items (d : t) : list (K * V) := d.
Definition len (d : t) : nat := length d.
End Ops.
Arguments t : clear implicits.
End Dict.

(** ** [merge] *)

(** The [while i < len(indices)] loop of [merge]; [new_indices] is the list
    being appended to and [pr] is the argument [pair]. *)
Equations? merge_loop (indices : list Z) (pr : Z * Z) (new_index : Z)
    (i : nat) (new_indices : list Z) : list Z
    by wf (length indices - i)%nat lt :=
  merge_loop indices pr new_index i new_indices
    with lt_dec i (length indices) => {
    | right _ := new_indices;
    | left _
        with ((i + 1 <? length indices)%nat
              && (nth i indices 0 =? fst pr)
              && (nth (i + 1) indices 0 =? snd pr)) => {
        | true :=
            merge_loop indices pr new_index (i + 2)
                       (new_indices ++ [new_index]);
        | false :=
            merge_loop indices pr new_index (i + 1)
                       (new_indices ++ [nth i indices 0]) } }.
Proof. all: lia. Qed.

Definition merge (indices : list Z) (pair : Z * Z) (new_index : Z) : list Z :=
  merge_loop indices pair new_index 0 [].

(** The single left-to-right pass as the specification words it: at each
    position, a match of [(left, right)] emits [newToken] and advances by two,
    anything else emits the current element and advances by one. *)
Fixpoint merge_ref (sequence : list Z) (left right newToken : Z) : list Z :=
  match sequence with
  | [] => []
  | x :: rest =>
      match rest with
      | y :: rest' =>
          if (x =? left) && (y =? right)
          then newToken :: merge_ref rest' left right newToken
          else x :: merge_ref rest left right newToken
      | [] => [x]
      end
  end.

(** ** UTF-8 ([str.encode] and [bytes.decode] with the default strict
    error handler), after RFC 3629 *)

Definition is_surrogate (c : Z) : bool := (0xD800 <=? c) && (c <=? 0xDFFF).

Definition is_cont (b : Z) : bool := (0x80 <=? b) && (b <=? 0xBF).

(** The bytes of one code point; [None] for a surrogate (and for an integer
    that is no code point at all). *)
Definition utf8_encode_char (c : Z) : option (list Z) :=
  if c <? 0 then None
  else if c <? 0x80 then Some [c]
  else if c <? 0x800 then Some [0xC0 + c / 64; 0x80 + c mod 64]
  else if c <? 0x10000 then
    if is_surrogate c then None
    else Some [0xE0 + c / 4096; 0x80 + (c / 64) mod 64; 0x80 + c mod 64]
  else if c <? 0x110000 then
    Some [0xF0 + c / 262144; 0x80 + (c / 4096) mod 64;
          0x80 + (c / 64) mod 64; 0x80 + c mod 64]
  else None.

(** [string.encode("utf-8")] *)
Fixpoint str_encode (string : list Z) : result (list Z) :=
  match string with
  | [] => Ok []
  | c :: rest =>
      b <- of_option UnicodeEncodeError (utf8_encode_char c) ;;
      bs <- str_encode rest ;;
      Ok (b ++ bs)
  end.

(** [string_bytes.decode("utf-8")]: shortest forms only, no surrogates,
    nothing above U+10FFFF. *)
Fixpoint bytes_decode (string_bytes : list Z) : result (list Z) :=
  match string_bytes with
  | [] => Ok []
  | b0 :: t0 =>
    if (0 <=? b0) && (b0 <? 0x80) then
      s <- bytes_decode t0 ;; Ok (b0 :: s)
    else
    match t0 with
    | [] => Raise UnicodeDecodeError
    | b1 :: t1 =>
      if (0xC2 <=? b0) && (b0 <=? 0xDF) then
        if is_cont b1 then
          s <- bytes_decode t1 ;;
          Ok ((b0 - 0xC0) * 64 + (b1 - 0x80) :: s)
        else Raise UnicodeDecodeError
      else
      match t1 with
      | [] => Raise UnicodeDecodeError
      | b2 :: t2 =>
        if (0xE0 <=? b0) && (b0 <=? 0xEF) then
          let c := (b0 - 0xE0) * 4096 + (b1 - 0x80) * 64 + (b2 - 0x80) in
          if is_cont b1 && is_cont b2 && (0x800 <=? c) && negb (is_surrogate c)
          then s <- bytes_decode t2 ;; Ok (c :: s)
          else Raise UnicodeDecodeError
        else
        match t2 with
        | [] => Raise UnicodeDecodeError
        | b3 :: t3 =>
          if (0xF0 <=? b0) && (b0 <=? 0xF4) then
            let c := (b0 - 0xF0) * 262144 + (b1 - 0x80) * 4096
                     + (b2 - 0x80) * 64 + (b3 - 0x80) in
            if is_cont b1 && is_cont b2 && is_cont b3
               && (0x10000 <=? c) && (c <? 0x110000)
            then s <- bytes_decode t3 ;; Ok (c :: s)
            else Raise UnicodeDecodeError
          else Raise UnicodeDecodeError
        end
      end
    end
  end.

(** A Python [str]: every element is a code point. *)
Definition is_str (s : list Z) : Prop :=
  Forall (fun c => 0 <= c <= 0x10FFFF) s.

(** A byte string is valid UTF-8 when it is the encoding of some string. *)
Definition valid_utf8 (bs : list Z) : Prop :=
  exists s, str_encode s = Ok bs.

(** ** [train_bpe] *)

Record BPETokenizerParams : Type := {
  vocab : Dict.t Z (list Z);        (* index -> bytes *)
  merges : Dict.t (Z * Z) Z         (* (index1, index2) -> new_index *)
}.

(** [range(n)] *)
Definition range (n : Z) : list Z := map Z.of_nat (seq 0 (Z.to_nat n)).

(** [zip(indices, indices[1:])] *)
Definition adjacent_pairs (indices : list Z) : list (Z * Z) :=
  combine indices (tl indices).

(** [counts[(index1, index2)] += 1] on a [defaultdict(int)]: a missing key
    reads as 0 and is entered at the end. *)
Definition incr (counts : Dict.t (Z * Z) Z) (p : Z * Z) : Dict.t (Z * Z) Z :=
  Dict.set counts p
    (match Dict.get counts p with Some c => c | None => 0 end + 1).

(** The counting pass over the adjacent pairs. *)
Definition count_pairs (indices : list Z) : Dict.t (Z * Z) Z :=
  fold_left incr (adjacent_pairs indices) Dict.empty.

(** The scan of [max(iterable, key=...)]: the running best is replaced only
    by a strictly greater key. *)
Fixpoint max_loop {K} (key : K -> Z) (best : K) (rest : list K) : K :=
  match rest with
  | [] => best
  | k :: rest' =>
      if key best <? key k then max_loop key k rest'
      else max_loop key best rest'
  end.

Definition py_max {K} (key : K -> Z) (iterable : list K) : result K :=
  match iterable with
  | [] => Raise ValueError
  | k :: rest => Ok (max_loop key k rest)
  end.

(** [counts.get] as used for the key of [max]: it is only applied to keys of
    [counts], where it returns the stored count. *)
Definition counts_get (counts : Dict.t (Z * Z) Z) (p : Z * Z) : Z :=
  match Dict.get counts p with Some c => c | None => 0 end.

(** [max(counts, key=counts.get)] *)
Definition select_pair (indices : list Z) : result (Z * Z) :=
  let counts := count_pairs indices in
  py_max (counts_get counts) (Dict.keys counts).

(** The local variables of [train_bpe] that the loop updates. *)
Record locals : Type := {
  l_indices : list Z;
  l_merges : Dict.t (Z * Z) Z;
  l_vocab : Dict.t Z (list Z)
}.

(** [{x: bytes([x]) for x in range(256)}] *)
Definition init_vocab : Dict.t Z (list Z) :=
  fold_left (fun d x => Dict.set d x [x]) (range 256) Dict.empty.
Arguments init_vocab : simpl never.

(** One pass through the body of [for i in range(num_merges)]. *)
Definition train_step (i : Z) (st : locals) : result locals :=
  pair <- select_pair (l_indices st) ;;
  let index1 := fst pair in
  let index2 := snd pair in
  let new_index := 256 + i in
  let merges := Dict.set (l_merges st) pair new_index in
  bytes1 <- Dict.getitem (l_vocab st) index1 ;;
  bytes2 <- Dict.getitem (l_vocab st) index2 ;;
  let vocab := Dict.set (l_vocab st) new_index (bytes1 ++ bytes2) in
  Ok {| l_indices := merge (l_indices st) pair new_index;
        l_merges := merges;
        l_vocab := vocab |}.

(** [n] passes of the loop, the first one with loop variable [i]. *)
Fixpoint train_loop (n : nat) (i : Z) (st : locals) : result locals :=
  match n with
  | O => Ok st
  | S n' => st' <- train_step i st ;; train_loop n' (i + 1) st'
  end.

Definition init_locals (indices : list Z) : locals :=
  {| l_indices := indices; l_merges := Dict.empty; l_vocab := init_vocab |}.

Definition train_bpe (string : list Z) (num_merges : Z)
  : result BPETokenizerParams :=
  indices <- str_encode string ;;
  st <- train_loop (Z.to_nat num_merges) 0 (init_locals indices) ;;
  Ok {| vocab := l_vocab st; merges := l_merges st |}.

(** ** [BPETokenizer] *)

(** [b"".join(bytes_list)], where an element [None] is no bytes object. *)
Fixpoint bytes_join (bytes_list : list (option (list Z))) : result (list Z) :=
  match bytes_list with
  | [] => Ok []
  | None :: _ => Raise TypeError
  | Some b :: rest => bs <- bytes_join rest ;; Ok (b ++ bs)
  end.

Module BPETokenizer.

Definition encode (params : BPETokenizerParams) (string : list Z)
  : result (list Z) :=
  string_bytes <- str_encode string ;;
  Ok (fold_left (fun indices item => merge indices (fst item) (snd item))
                (Dict.items (merges params)) string_bytes).

Definition decode (params : BPETokenizerParams) (indices : list Z)
  : result (list Z) :=
  let bytes_list := map (Dict.get (vocab params)) indices in
  string_bytes <- bytes_join bytes_list ;;
  bytes_decode string_bytes.

End BPETokenizer.

(** ** Notions used to state the properties *)

(** An ASCII literal as a [str]. *)
Definition str_of (s : String.string) : list Z :=
  map (fun a => Z.of_N (Ascii.N_of_ascii a)) (String.list_ascii_of_string s).

(** Number of occurrences of [q] among [ps]. *)
Definition occurrences (q : Z * Z) (ps : list (Z * Z)) : Z :=
  Z.of_nat (length (filter (pair_eqb q) ps)).

(** Position of the first occurrence of [q] in [ps] ([length ps] if none). *)
Fixpoint first_index (q : Z * Z) (ps : list (Z * Z)) : nat :=
  match ps with
  | [] => O
  | p :: rest => if pair_eqb p q then O else S (first_index q rest)
  end.

(** [pair] is an adjacent pair of [indices] of maximal count and, among the
    pairs of that count, the one met first in the left-to-right scan. *)
Definition first_max (indices : list Z) (pair : Z * Z) : Prop :=
  let ps := adjacent_pairs indices in
  In pair ps
  /\ (forall q, occurrences q ps <= occurrences pair ps)
  /\ (forall q, q <> pair -> occurrences q ps = occurrences pair ps ->
                 (first_index pair ps < first_index q ps)%nat).

(** The rules applied one after the other, first rule first. *)
Fixpoint apply_rules (rules : list ((Z * Z) * Z)) (indices : list Z) : list Z :=
  match rules with
  | [] => indices
  | (p, new_index) :: rest => apply_rules rest (merge indices p new_index)
  end.

(** The rules learned by [n] passes of the training loop, in the order the
    passes select them (passes after a raising one learn nothing). *)
Fixpoint learned (n : nat) (i : Z) (st : locals) : list ((Z * Z) * Z) :=
  match n with
  | O => []
  | S n' =>
      match select_pair (l_indices st), train_step i st with
      | Ok p, Ok st' => (p, 256 + i) :: learned n' (i + 1) st'
      | _, _ => []
      end
  end.

(** Concatenation of the byte expansions of the tokens that [vocab] knows. *)
Definition expand (vocab : Dict.t Z (list Z)) (indices : list Z) : list Z :=
  flat_map (fun t => match Dict.get vocab t with Some b => b | None => [] end)
           indices.

(** What the training loop maintains; [i] is the number of passes made. *)
Record train_inv (i : Z) (st : locals) : Prop := {
  inv_nonneg : 0 <= i;
  inv_tokens : Forall (fun t => 0 <= t < 256 + i) (l_indices st);
  inv_vocab_keys : Dict.keys (l_vocab st) = range (256 + i);
  inv_vocab_base : forall t, 0 <= t < 256 -> Dict.get (l_vocab st) t = Some [t];
  inv_merges_values :
    Dict.values (l_merges st) = map (fun j => 256 + j) (range i);
  inv_merges_keys : NoDup (Dict.keys (l_merges st));
  inv_rules :
    Forall (fun item =>
              let '((a, b), n) := item in
              0 <= a < n /\ 0 <= b < n /\ 256 <= n < 256 + i /\
              exists va vb,
                Dict.get (l_vocab st) a = Some va /\
                Dict.get (l_vocab st) b = Some vb /\
                Dict.get (l_vocab st) n = Some (va ++ vb))
           (Dict.items (l_merges st));
  inv_merged :
    forall p, In p (Dict.keys (l_merges st)) ->
              ~ In p (adjacent_pairs (l_indices st))
}.

(** ** The run of the notebook: three merges learned from one sentence *)

Definition cat_corpus : list Z := str_of "the cat in the hat"%string.

Definition fox : list Z := str_of "the quick brown fox"%string.

Definition cat_merges : Dict.t (Z * Z) Z :=
  [((116, 104), 256); ((256, 101), 257); ((257, 32), 258)].

Definition cat_vocab : Dict.t Z (list Z) :=
  map (fun x => (x, [x])) (range 256)
  ++ [(256, [116; 104]); (257, [116; 104; 101]); (258, [116; 104; 101; 32])].

Definition cat_params : BPETokenizerParams :=
  {| vocab := cat_vocab; merges := cat_merges |}.

(** The local variables when the loop of that run is left. *)
Definition cat_locals : locals :=
  {| l_indices := [258; 99; 97; 116; 32; 105; 110; 32; 258; 104; 97; 116];
     l_merges := cat_merges;
     l_vocab := cat_vocab |}.

(** ** The other tokenizers of the notebook *)

(** [bytes(indices)]: every element must be in [range(256)]. *)
Fixpoint py_bytes (indices : list Z) : result (list Z) :=
  match indices with
  | [] => Ok []
  | i :: rest =>
      if (0 <=? i) && (i <? 256) then
        bs <- py_bytes rest ;; Ok (i :: bs)
      else Raise ValueError
  end.

Module ByteTokenizer.

Definition encode (string : list Z) : result (list Z) :=
  string_bytes <- str_encode string ;;
  let indices := map (fun b => b) string_bytes in
  Ok indices.

Definition decode (indices : list Z) : result (list Z) :=
  string_bytes <- py_bytes indices ;;
  bytes_decode string_bytes.

End ByteTokenizer.

Module CharacterTokenizer.

(** [ord(c)]: a character of a [str] is its code point. *)
Definition ord (c : Z) : Z := c.

(** [chr(i)]; [None] when it raises, which it does exactly outside
    [range(0x110000)]. *)
Definition chr (i : Z) : option Z :=
  if (0 <=? i) && (i <? 0x110000) then Some i else None.

Definition encode (string : list Z) : list Z := map ord string.

(** [[chr(i) for i in indices]], evaluated from left to right; the join of
    the characters is the list itself. *)
Fixpoint decode (indices : list Z) : option (list Z) :=
  match indices with
  | [] => Some []
  | i :: rest =>
      match chr i with
      | None => None
      | Some c =>
          match decode rest with
          | None => None
          | Some s => Some (c :: s)
          end
      end
  end.

End CharacterTokenizer.

(** ** [get_compression_ratio] *)

(** What the call gives: a float, an exception of [str.encode], or the
    [ZeroDivisionError] of [/]. *)
Inductive ratio_result (F : Type) : Type :=
| RatioOk (x : F)
| RatioRaise (e : exn)
| RatioZeroDivisionError.
Arguments RatioOk {F} x.
Arguments RatioRaise {F} e.
Arguments RatioZeroDivisionError {F}.

Section CompressionRatio.
Variable float : Type.
(** [a / b] on two integers with [b] not zero: the float nearest to the
    quotient.  Floats are not modelled; the operation is a parameter. *)
Variable truediv : Z -> Z -> float.

Definition get_compression_ratio (string : list Z) (indices : list Z)
  : ratio_result float :=
  match str_encode string with
  | Raise e => RatioRaise e
  | Ok string_bytes =>
      let num_bytes := Z.of_nat (length string_bytes) in
      let num_tokens := Z.of_nat (length indices) in
      if num_tokens =? 0 then RatioZeroDivisionError
      else RatioOk (truediv num_bytes num_tokens)
  end.

End CompressionRatio.
Arguments get_compression_ratio {float} truediv string indices.

(** ** Further notions used to state properties *)

(** Every occurrence of [new_index] replaced by the two tokens of [pair]. *)
Definition unmerge (pair : Z * Z) (new_index : Z) (indices : list Z)
  : list Z :=
  flat_map (fun t => if t =? new_index then [fst pair; snd pair] else [t])
           indices.

(** Sum of the counts of a frequency table. *)
Definition total (counts : Dict.t (Z * Z) Z) : Z :=
  fold_right Z.add 0 (Dict.values counts).

(** Rules listed with increasing new tokens, none below [m], each new token
    above the two tokens of its pair. *)
Fixpoint rules_ordered (m : Z) (rules : list ((Z * Z) * Z)) : Prop :=
  match rules with
  | [] => True
  | (p, n) :: rest =>
      m <= n /\ fst p < n /\ snd p < n /\ rules_ordered (n + 1) rest
  end.

(** An entry of a trained vocabulary: a non-empty string of bytes, of at
    least two bytes for a learned token. *)
Definition entry_ok (entry : Z * list Z) : Prop :=
  Forall (fun x => 0 <= x < 256) (snd entry)
  /\ (1 <= length (snd entry))%nat
  /\ (256 <= fst entry -> (2 <= length (snd entry))%nat).

(** * Properties *)

(** ** Boolean equality of keys *)

Class PyEqLaws (K : Type) `{PyEq K} :=
  key_eqb_spec : forall x y : K, reflect (x = y) (key_eqb x y).
Arguments PyEqLaws K {_}.

Lemma pair_eqb_spec (p q : Z * Z) : reflect (p = q) (pair_eqb p q).
Proof.
  destruct p as [a b], q as [c d]; unfold pair_eqb; simpl.
  destruct (Z.eqb_spec a c), (Z.eqb_spec b d); constructor; congruence.
Qed.

#[export] Instance PyEqLaws_Z : PyEqLaws Z := Z.eqb_spec.
#[export] Instance PyEqLaws_pair : PyEqLaws (Z * Z) := pair_eqb_spec.

Lemma pair_eqb_refl p : pair_eqb p p = true.
Proof. destruct (pair_eqb_spec p p); congruence. Qed.

(** ** Dictionaries *)

Section DictFacts.
Context {K V : Type} `{PyEqLaws K}.
Implicit Types (d : Dict.t K V) (k : K) (v : V).

Lemma key_eqb_refl k : key_eqb k k = true.
Proof. destruct (key_eqb_spec k k); congruence. Qed.

Lemma key_eqb_neq k k' : k <> k' -> key_eqb k k' = false.
Proof. destruct (key_eqb_spec k k'); congruence. Qed.

Lemma get_set_eq d k v : Dict.get (Dict.set d k v) k = Some v.
Proof.
  induction d as [|[k' v'] d IH]; simpl.
  - now rewrite key_eqb_refl.
  - destruct (key_eqb k' k) eqn:E; simpl; rewrite E; auto.
Qed.

Lemma get_set_neq d k k' v :
  k <> k' -> Dict.get (Dict.set d k v) k' = Dict.get d k'.
Proof.
  intros Hne. induction d as [|[k0 v0] d IH]; simpl.
  - now rewrite key_eqb_neq.
  - destruct (key_eqb_spec k0 k) as [->|]; simpl.
    + now rewrite key_eqb_neq.
    + now rewrite IH.
Qed.

Lemma get_None_iff d k : Dict.get d k = None <-> ~ In k (Dict.keys d).
Proof.
  induction d as [|[k' v'] d IH]; simpl; [tauto|].
  destruct (key_eqb_spec k' k) as [->|Hne].
  - split; [discriminate | intros Hn; exfalso; auto].
  - rewrite IH. tauto.
Qed.

Lemma set_fresh d k v : Dict.get d k = None -> Dict.set d k v = d ++ [(k, v)].
Proof.
  induction d as [|[k' v'] d IH]; simpl; [reflexivity|].
  destruct (key_eqb k' k); [discriminate|].
  intros Hg. now rewrite IH.
Qed.

Lemma keys_set_present d k v :
  Dict.get d k <> None -> Dict.keys (Dict.set d k v) = Dict.keys d.
Proof.
  induction d as [|[k' v'] d IH]; simpl; [congruence|].
  destruct (key_eqb k' k); simpl; [reflexivity|].
  intros Hg. now rewrite IH.
Qed.
End DictFacts.

(** ** [merge] against the single-pass reference *)

Lemma skipn_nth_cons (l : list Z) (i : nat) :
  (i < length l)%nat -> skipn i l = nth i l 0 :: skipn (i + 1) l.
Proof.
  revert i; induction l as [|x l IH]; intros i Hi; simpl in Hi; [lia|].
  destruct i as [|i]; simpl; [reflexivity|].
  apply IH; lia.
Qed.

Lemma skipn_past (l : list Z) (i : nat) :
  ~ (i < length l)%nat -> skipn i l = [].
Proof. intros; apply skipn_all2; lia. Qed.

Lemma merge_loop_ref indices pair new_index i new_indices :
  merge_loop indices pair new_index i new_indices =
  new_indices ++ merge_ref (skipn i indices) (fst pair) (snd pair) new_index.
Proof.
  funelim (merge_loop indices pair new_index i new_indices).
  - (* cursor past the end *)
    rewrite (skipn_past indices i n). simpl. rewrite app_nil_r. reflexivity.
  - (* match *)
    match goal with IH : merge_loop _ _ _ _ _ = _ ++ _ |- _ => rewrite IH end.
    rewrite <- app_assoc; f_equal; simpl.
    apply andb_prop in Heq as [Heq Hb]. apply andb_prop in Heq as [Hlen Ha].
    apply Nat.ltb_lt in Hlen.
    rewrite (skipn_nth_cons indices i l), (skipn_nth_cons indices (i + 1) Hlen).
    simpl. rewrite Ha, Hb. simpl.
    replace (i + 1 + 1)%nat with (i + 2)%nat by lia. reflexivity.
  - (* no match *)
    match goal with IH : merge_loop _ _ _ _ _ = _ ++ _ |- _ => rewrite IH end.
    rewrite <- app_assoc; f_equal; simpl.
    rewrite (skipn_nth_cons indices i l).
    destruct (skipn (i + 1) indices) as [|y rest] eqn:Hs; simpl; [reflexivity|].
    assert (Hlen : (i + 1 < length indices)%nat).
    { destruct (lt_dec (i + 1) (length indices)) as [|Hn]; [assumption|].
      rewrite (skipn_past indices (i + 1) Hn) in Hs; discriminate. }
    rewrite (skipn_nth_cons indices (i + 1) Hlen) in Hs. injection Hs as Hy _.
    rewrite <- Hy.
    apply Nat.ltb_lt in Hlen. rewrite Hlen in Heq. simpl in Heq.
    rewrite Heq. reflexivity.
Qed.

Lemma merge_eq_ref indices pair new_index :
  merge indices pair new_index =
  merge_ref indices (fst pair) (snd pair) new_index.
Proof. unfold merge. rewrite merge_loop_ref. reflexivity. Qed.

(** C4: [merge] is the single left-to-right pass of the specification
    (a match of the pair emits the new token and skips two elements, anything
    else emits the current element and skips one) on every input; being a
    function it is total and deterministic, and on the two inputs of the
    specification it gives [1,9,4,9,5] and [7,5]. *)
Theorem merge_is_single_pass :
  (forall indices pair new_index,
      merge indices pair new_index =
      merge_ref indices (fst pair) (snd pair) new_index)
  /\ merge [1; 2; 3; 4; 2; 3; 5] (2, 3) 9 = [1; 9; 4; 9; 5]
  /\ merge [5; 5; 5] (5, 5) 7 = [7; 5].
Proof.
  split; [exact merge_eq_ref|].
  split; rewrite merge_eq_ref; reflexivity.
Qed.

(** ** UTF-8: encoding and decoding are inverse to each other *)

Ltac bool_to_prop :=
  unfold is_cont, is_surrogate in *;
  repeat match goal with
  | H : negb _ = true |- _ => apply negb_true_iff in H
  | H : negb _ = false |- _ => apply negb_false_iff in H
  | H : _ && _ = true |- _ => apply andb_prop in H; destruct H
  | H : _ && _ = false |- _ => apply andb_false_iff in H; destruct H
  | H : (_ <=? _) = true |- _ => apply Z.leb_le in H
  | H : (_ <=? _) = false |- _ => apply Z.leb_gt in H
  | H : (_ <? _) = true |- _ => apply Z.ltb_lt in H
  | H : (_ <? _) = false |- _ => apply Z.ltb_ge in H
  end.

Ltac zlia := Z.div_mod_to_equations; lia.

(** Decides the test of an [if] at the head of the goal's left-hand side when
    the context refutes one of its outcomes. *)
Ltac step_if :=
  match goal with
  | |- (if ?c then _ else _) = _ =>
      let E := fresh "E" in
      destruct c eqn:E; try solve [exfalso; bool_to_prop; zlia]
  end.

(** Reads [b] off a hypothesis [Some x = Some b] without reducing [x]. *)
Ltac some_inj :=
  match goal with
  | |- None = Some _ -> _ => discriminate
  | |- Some ?x = Some ?b -> _ =>
      let Heq := fresh in
      intros Heq; assert (b = x) as -> by congruence; clear Heq
  end.

Lemma utf8_encode_char_bytes c b :
  utf8_encode_char c = Some b -> Forall (fun x => 0 <= x < 256) b.
Proof.
  unfold utf8_encode_char.
  repeat match goal with
         | |- (if ?t then _ else _) = _ -> _ => destruct t eqn:?
         end;
    some_inj; bool_to_prop;
    repeat (apply Forall_cons; [zlia|]); apply Forall_nil.
Qed.

Lemma bytes_decode_encode_char c b rest :
  utf8_encode_char c = Some b ->
  bytes_decode (b ++ rest) = (s <- bytes_decode rest ;; Ok (c :: s)).
Proof.
  unfold utf8_encode_char.
  repeat match goal with
         | |- (if ?t then _ else _) = _ -> _ => destruct t eqn:?
         end;
    some_inj; cbn [app bytes_decode]; cbv zeta; repeat step_if;
    try reflexivity;
    match goal with
    | |- bind _ (fun s => Ok (?e :: s)) = _ => replace e with c by zlia
    end; reflexivity.
Qed.

Lemma str_encode_bytes s bs :
  str_encode s = Ok bs -> Forall (fun x => 0 <= x < 256) bs.
Proof.
  revert bs; induction s as [|c s IH]; simpl; intros bs.
  - intros [= <-]. constructor.
  - destruct (utf8_encode_char c) as [b|] eqn:Ec; simpl; [|discriminate].
    destruct (str_encode s) as [bs'|] eqn:Es; simpl; [|discriminate].
    intros [= <-]. apply Forall_app; split; eauto using utf8_encode_char_bytes.
Qed.

Lemma bytes_decode_str_encode s bs :
  str_encode s = Ok bs -> bytes_decode bs = Ok s.
Proof.
  revert bs; induction s as [|c s IH]; simpl; intros bs.
  - intros [= <-]. reflexivity.
  - destruct (utf8_encode_char c) as [b|] eqn:Ec; simpl; [|discriminate].
    destruct (str_encode s) as [bs'|] eqn:Es; simpl; [|discriminate].
    intros [= <-]. rewrite (bytes_decode_encode_char _ _ _ Ec), (IH _ eq_refl).
    reflexivity.
Qed.

Lemma utf8_encode_char_1 b0 :
  0 <= b0 < 0x80 -> utf8_encode_char b0 = Some [b0].
Proof. intros H0. unfold utf8_encode_char. repeat step_if. reflexivity. Qed.

Lemma utf8_encode_char_2 b0 b1 :
  0xC2 <= b0 <= 0xDF -> 0x80 <= b1 <= 0xBF ->
  utf8_encode_char ((b0 - 0xC0) * 64 + (b1 - 0x80)) = Some [b0; b1].
Proof.
  intros H0 H1. unfold utf8_encode_char. repeat step_if.
  do 2 f_equal; [|f_equal]; zlia.
Qed.

Lemma utf8_encode_char_3 b0 b1 b2 :
  let c := (b0 - 0xE0) * 4096 + (b1 - 0x80) * 64 + (b2 - 0x80) in
  0xE0 <= b0 <= 0xEF -> 0x80 <= b1 <= 0xBF -> 0x80 <= b2 <= 0xBF ->
  0x800 <= c -> is_surrogate c = false ->
  utf8_encode_char c = Some [b0; b1; b2].
Proof.
  intros c H0 H1 H2 Hc Hs. unfold utf8_encode_char. rewrite Hs.
  subst c. repeat step_if.
  do 2 f_equal; [|f_equal; [|f_equal]]; zlia.
Qed.

Lemma utf8_encode_char_4 b0 b1 b2 b3 :
  let c := (b0 - 0xF0) * 262144 + (b1 - 0x80) * 4096
           + (b2 - 0x80) * 64 + (b3 - 0x80) in
  0xF0 <= b0 <= 0xF4 -> 0x80 <= b1 <= 0xBF -> 0x80 <= b2 <= 0xBF ->
  0x80 <= b3 <= 0xBF -> 0x10000 <= c < 0x110000 ->
  utf8_encode_char c = Some [b0; b1; b2; b3].
Proof.
  intros c H0 H1 H2 H3 Hc. unfold utf8_encode_char.
  subst c. repeat step_if.
  do 2 f_equal; [|f_equal; [|f_equal; [|f_equal]]]; zlia.
Qed.

(** Case analysis on a successful run of [bytes_decode], one test at a time. *)
Ltac decode_inv H :=
  repeat match type of H with
  | (if ?c then _ else _) = Ok _ => destruct c eqn:?; try discriminate H
  | match ?t with [] => _ | _ :: _ => _ end = Ok _ =>
      destruct t; try discriminate H
  | bind (bytes_decode ?t) _ = Ok _ =>
      destruct (bytes_decode t) eqn:?; cbn [bind] in H; try discriminate H
  end.

Lemma str_encode_bytes_decode_len n :
  forall bs s, (length bs <= n)%nat ->
               bytes_decode bs = Ok s -> str_encode s = Ok bs.
Proof.
  induction n as [|n IH]; intros bs s Hlen Hd.
  - destruct bs; simpl in Hlen; [|lia]. simpl in Hd. now injection Hd as <-.
  - destruct bs as [|b0 t0]; [simpl in Hd; now injection Hd as <-|].
    cbn [bytes_decode] in Hd; cbv zeta in Hd. simpl in Hlen.
    decode_inv Hd; injection Hd as <-; cbn [str_encode].
    + (* one byte *)
      rewrite utf8_encode_char_1 by (bool_to_prop; lia).
      cbn [of_option bind]. rewrite (IH t0 a) by (assumption || lia).
      reflexivity.
    + (* two bytes *)
      rewrite utf8_encode_char_2 by (bool_to_prop; lia).
      cbn [of_option bind].
      rewrite (IH t0 a) by (assumption || simpl in *; lia).
      reflexivity.
    + (* three bytes *)
      rewrite utf8_encode_char_3 by (bool_to_prop; (assumption || lia)).
      cbn [of_option bind].
      rewrite (IH t0 a) by (assumption || simpl in *; lia).
      reflexivity.
    + (* four bytes *)
      rewrite utf8_encode_char_4 by (bool_to_prop; lia).
      cbn [of_option bind].
      rewrite (IH t0 a) by (assumption || simpl in *; lia).
      reflexivity.
Qed.

Lemma str_encode_bytes_decode bs s :
  bytes_decode bs = Ok s -> str_encode s = Ok bs.
Proof. apply (str_encode_bytes_decode_len (length bs)). lia. Qed.

Lemma bytes_decode_Ok_iff bs s :
  bytes_decode bs = Ok s <-> str_encode s = Ok bs.
Proof.
  split; [apply str_encode_bytes_decode | apply bytes_decode_str_encode].
Qed.

Lemma bytes_decode_exn bs e :
  bytes_decode bs = Raise e -> e = UnicodeDecodeError.
Proof.
  remember (length bs) as n eqn:Hn.
  revert bs Hn; induction n as [n IH] using lt_wf_ind; intros bs Hn Hd.
  destruct bs as [|b0 t0]; [discriminate|].
  cbn [bytes_decode] in Hd; cbv zeta in Hd. simpl in Hn.
  repeat match type of Hd with
  | (if ?c then _ else _) = Raise _ => destruct c eqn:?
  | match ?t with [] => _ | _ :: _ => _ end = Raise _ => destruct t
  | bind (bytes_decode ?t) _ = Raise _ =>
      let E := fresh "E" in
      destruct (bytes_decode t) eqn:E; cbn [bind] in Hd;
      [discriminate Hd | injection Hd as <-; simpl in Hn;
                         eapply (IH (length t)); [lia | reflexivity | exact E]]
  | Raise _ = Raise _ => injection Hd as <-; reflexivity
  end.
Qed.

(** ** The counting pass and the choice of [max] *)

Lemma first_index_lt q l : In q l -> (first_index q l < length l)%nat.
Proof.
  induction l as [|p l IH]; simpl; [tauto|].
  destruct (pair_eqb_spec p q) as [->|Hne]; [lia|].
  intros [->|Hin]; [congruence|]. apply IH in Hin. lia.
Qed.

Lemma first_index_app_in q l l' :
  In q l -> first_index q (l ++ l') = first_index q l.
Proof.
  induction l as [|p l IH]; simpl; [tauto|].
  destruct (pair_eqb_spec p q) as [->|Hne]; [reflexivity|].
  intros [->|Hin]; [congruence|]. now rewrite IH.
Qed.

Lemma first_index_app_notin q l l' :
  ~ In q l -> first_index q (l ++ l') = (length l + first_index q l')%nat.
Proof.
  induction l as [|p l IH]; simpl; [reflexivity|].
  intros Hn. destruct (pair_eqb_spec p q) as [->|Hne]; [tauto|].
  rewrite IH by tauto. reflexivity.
Qed.

Lemma first_index_here q l : first_index q (q :: l) = O.
Proof. simpl. now rewrite pair_eqb_refl. Qed.

Lemma occurrences_nonneg q ps : 0 <= occurrences q ps.
Proof. unfold occurrences. lia. Qed.

Lemma occurrences_snoc q ps p :
  occurrences q (ps ++ [p]) =
  occurrences q ps + (if pair_eqb q p then 1 else 0).
Proof.
  unfold occurrences. rewrite filter_app, length_app. simpl.
  destruct (pair_eqb q p); simpl; lia.
Qed.

Lemma occurrences_notin q ps : ~ In q ps -> occurrences q ps = 0.
Proof.
  unfold occurrences. intros Hn.
  replace (filter (pair_eqb q) ps) with (@nil (Z * Z)); [reflexivity|].
  symmetry. induction ps as [|p ps IH]; simpl; [reflexivity|].
  destruct (pair_eqb_spec q p) as [->|Hne]; [exfalso; apply Hn; now left|].
  apply IH. intros Hin; apply Hn; now right.
Qed.

Lemma occurrences_in q ps : In q ps -> 0 < occurrences q ps.
Proof.
  unfold occurrences. induction ps as [|p ps IH]; simpl; [tauto|].
  destruct (pair_eqb_spec q p) as [->|Hne]; simpl; [lia|].
  intros [->|Hin]; [congruence|auto].
Qed.

Lemma counts_get_incr d p q :
  counts_get (incr d p) q = counts_get d q + (if pair_eqb q p then 1 else 0).
Proof.
  unfold counts_get, incr.
  destruct (pair_eqb_spec q p) as [->|Hne].
  - now rewrite get_set_eq.
  - rewrite get_set_neq by congruence. lia.
Qed.

Lemma keys_incr d p :
  Dict.keys (incr d p) =
  match Dict.get d p with
  | Some _ => Dict.keys d
  | None => Dict.keys d ++ [p]
  end.
Proof.
  unfold incr. destruct (Dict.get d p) as [c|] eqn:Hg.
  - apply keys_set_present. congruence.
  - rewrite set_fresh by assumption. unfold Dict.keys.
    now rewrite map_app.
Qed.

(** The table built by the counting pass: the stored count of a pair is its
    number of occurrences, the keys are the pairs that occur, and they are
    listed in the order of their first occurrences. *)
Lemma count_table ps :
  let d := fold_left incr ps Dict.empty in
  (forall q, counts_get d q = occurrences q ps)
  /\ (forall q, In q (Dict.keys d) <-> In q ps)
  /\ (forall a b, In a (Dict.keys d) -> In b (Dict.keys d) ->
                  (first_index a (Dict.keys d)
                   < first_index b (Dict.keys d))%nat ->
                  (first_index a ps < first_index b ps)%nat).
Proof.
  induction ps as [|p ps IH] using rev_ind; simpl.
  - repeat split; simpl; tauto.
  - rewrite fold_left_app; simpl.
    set (d := fold_left incr ps Dict.empty) in *.
    destruct IH as (Hcnt & Hkeys & Hord).
    assert (Hk : Dict.keys (incr d p) =
                 if in_dec (fun x y => reflect_dec _ _ (pair_eqb_spec x y))
                           p (Dict.keys d)
                 then Dict.keys d else Dict.keys d ++ [p]).
    { rewrite keys_incr. destruct (in_dec _ p (Dict.keys d)) as [Hin|Hn].
      - destruct (Dict.get d p) eqn:Hg; [reflexivity|].
        apply get_None_iff in Hg. tauto.
      - apply get_None_iff in Hn. now rewrite Hn. }
    rewrite Hk. clear Hk.
    split; [|split].
    + intros q. rewrite counts_get_incr, occurrences_snoc, Hcnt. reflexivity.
    + intros q. rewrite in_app_iff. simpl.
      destruct (in_dec _ p (Dict.keys d)) as [Hin|Hn].
      * rewrite Hkeys. split; [tauto|].
        intros [Hq|[<-|[]]]; [assumption|]. now apply Hkeys.
      * rewrite in_app_iff, Hkeys. simpl. tauto.
    + intros a b. destruct (in_dec _ p (Dict.keys d)) as [Hin|Hn].
      * intros Ha Hb Hlt.
        rewrite !first_index_app_in by (now apply Hkeys). auto.
      * rewrite !in_app_iff. simpl.
        intros [Ha|[<-|[]]] [Hb|[<-|[]]].
        -- rewrite !first_index_app_in by (assumption || now apply Hkeys). auto.
        -- intros _. rewrite (first_index_app_in a) by (now apply Hkeys).
           rewrite first_index_app_notin by (now rewrite <- Hkeys).
           pose proof (first_index_lt a ps (proj1 (Hkeys a) Ha)). lia.
        -- rewrite (first_index_app_in b) by assumption.
           rewrite first_index_app_notin by assumption.
           pose proof (first_index_lt b _ Hb). lia.
        -- lia.
Qed.

Section MaxLoop.
Context {K : Type} (key : K -> Z).

Lemma max_loop_upper rest : forall best,
  let r := max_loop key best rest in
  In r (best :: rest) /\ forall x, In x (best :: rest) -> key x <= key r.
Proof.
  induction rest as [|k rest IH]; intros best; simpl.
  - split; [now left|]. intros x [<-|[]]. lia.
  - destruct (Z.ltb_spec (key best) (key k)) as [Hlt|Hge].
    + destruct (IH k) as [Hin Hmax]. split; [now right|].
      intros x [<-|Hx]; [|auto]. specialize (Hmax k (or_introl eq_refl)). lia.
    + destruct (IH best) as [Hin Hmax]. split.
      * destruct Hin as [<-|Hin]; [now left | now right; right].
      * intros x [<-|[<-|Hx]].
        -- apply Hmax. now left.
        -- specialize (Hmax best (or_introl eq_refl)). lia.
        -- apply Hmax. now right.
Qed.

(** Everything in front of the chosen element has a strictly smaller key. *)
Lemma max_loop_first rest : forall best,
  let r := max_loop key best rest in
  exists l1 l2, best :: rest = l1 ++ r :: l2 /\
                forall x, In x l1 -> key x < key r.
Proof.
  induction rest as [|k rest IH]; intros best; simpl.
  - exists [], []. split; [reflexivity|]. intros x [].
  - destruct (Z.ltb_spec (key best) (key k)) as [Hlt|Hge].
    + destruct (IH k) as (l1 & l2 & Heq & Hl1).
      exists (best :: l1), l2. split; [simpl; now rewrite Heq|].
      intros x [<-|Hx]; [|auto].
      pose proof (proj2 (max_loop_upper rest k) k (or_introl eq_refl)).
      simpl in *. lia.
    + destruct (IH best) as (l1 & l2 & Heq & Hl1).
      destruct l1 as [|b l1]; simpl in Heq; injection Heq as Hb Hrest.
      * exists [], (k :: rest). split; [simpl; now rewrite <- Hb|].
        intros x [].
      * subst b. exists (best :: k :: l1), l2.
        split; [simpl; do 2 f_equal; exact Hrest|].
        intros x [<-|[<-|Hx]].
        -- apply Hl1. now left.
        -- specialize (Hl1 best (or_introl eq_refl)). lia.
        -- apply Hl1. now right.
Qed.
End MaxLoop.

Lemma adjacent_pairs_nil indices :
  adjacent_pairs indices = [] <-> (length indices < 2)%nat.
Proof.
  destruct indices as [|x [|y l]]; simpl; split;
    try reflexivity; try lia; discriminate.
Qed.

Lemma count_pairs_keys_nil indices :
  Dict.keys (count_pairs indices) = [] <-> adjacent_pairs indices = [].
Proof.
  unfold count_pairs.
  destruct (count_table (adjacent_pairs indices)) as (_ & Hkeys & _).
  split; intros Hnil.
  - destruct (adjacent_pairs indices) as [|p ps]; [reflexivity|].
    exfalso. specialize (proj2 (Hkeys p) (or_introl eq_refl)).
    rewrite Hnil. intros [].
  - rewrite Hnil. reflexivity.
Qed.

Lemma select_pair_raises indices :
  (length indices < 2)%nat -> select_pair indices = Raise ValueError.
Proof.
  intros Hlen. apply adjacent_pairs_nil, count_pairs_keys_nil in Hlen.
  unfold select_pair. now rewrite Hlen.
Qed.

Lemma select_pair_returns indices :
  (2 <= length indices)%nat -> exists pair, select_pair indices = Ok pair.
Proof.
  intros Hlen. unfold select_pair.
  destruct (Dict.keys (count_pairs indices)) as [|k ks] eqn:Hk; simpl; eauto.
  apply count_pairs_keys_nil, adjacent_pairs_nil in Hk. lia.
Qed.

Lemma select_pair_first_max indices pair :
  select_pair indices = Ok pair -> first_max indices pair.
Proof.
  unfold select_pair, first_max, count_pairs.
  set (ps := adjacent_pairs indices).
  destruct (count_table ps) as (Hcnt & Hkeys & Hord).
  set (d := fold_left incr ps Dict.empty) in *.
  destruct (Dict.keys d) as [|k ks] eqn:Hk; simpl; [discriminate|].
  intros [= <-].
  destruct (max_loop_upper (counts_get d) ks k) as [Hin Hmax].
  destruct (max_loop_first (counts_get d) ks k) as (l1 & l2 & Hsplit & Hl1).
  set (r := max_loop (counts_get d) k ks) in *.
  split; [now apply Hkeys|]. split.
  - intros q. destruct (in_dec (fun x y => reflect_dec _ _ (pair_eqb_spec x y))
                               q ps) as [Hq|Hq].
    + rewrite <- !Hcnt. apply Hmax. now apply Hkeys.
    + rewrite (occurrences_notin q ps Hq). apply occurrences_nonneg.
  - intros q Hne Htie.
    assert (Hq : In q ps).
    { destruct (in_dec (fun x y => reflect_dec _ _ (pair_eqb_spec x y))
                       q ps) as [Hq|Hq]; [assumption|].
      rewrite (occurrences_notin q ps Hq) in Htie.
      pose proof (occurrences_in r ps (proj1 (Hkeys r) Hin)). lia. }
    apply Hord; [assumption | now apply Hkeys |].
    assert (Hr1 : ~ In r l1) by (intros Hr; specialize (Hl1 r Hr); lia).
    assert (Hq1 : ~ In q l1).
    { intros Hq'. specialize (Hl1 q Hq'). rewrite !Hcnt in Hl1. lia. }
    rewrite Hsplit, !first_index_app_notin by assumption.
    rewrite first_index_here. simpl.
    destruct (pair_eqb_spec r q); [congruence | lia].
Qed.

(** A pass that completes has selected a pair of maximal count, the first
    met among the pairs of that count, from a table that holds the number of
    occurrences of every pair, and has merged and recorded that pair. *)
Lemma train_step_first_max i st st' :
  train_step i st = Ok st' ->
  exists pair,
    select_pair (l_indices st) = Ok pair
    /\ first_max (l_indices st) pair
    /\ (forall q, counts_get (count_pairs (l_indices st)) q =
                  occurrences q (adjacent_pairs (l_indices st)))
    /\ l_indices st' = merge (l_indices st) pair (256 + i)
    /\ l_merges st' = Dict.set (l_merges st) pair (256 + i).
Proof.
  unfold train_step.
  destruct (select_pair (l_indices st)) as [pair|e] eqn:Hsel; simpl;
    [|discriminate].
  destruct (Dict.getitem (l_vocab st) (fst pair)); simpl; [|discriminate].
  destruct (Dict.getitem (l_vocab st) (snd pair)); simpl; [|discriminate].
  intros [= <-]. exists pair. simpl.
  split; [reflexivity|]. split; [now apply select_pair_first_max|].
  split; [|split; reflexivity].
  apply (count_table (adjacent_pairs (l_indices st))).
Qed.

(** ** What one merge does to a token sequence *)

Lemma list_ind2 (P : list Z -> Prop) :
  P [] -> (forall x, P [x]) ->
  (forall x y l, P l -> P (y :: l) -> P (x :: y :: l)) ->
  forall l, P l.
Proof.
  intros Hnil Hone Hstep l.
  enough (P l /\ forall x, P (x :: l)) by tauto.
  induction l as [|y l [IH1 IH2]]; split; auto.
Qed.

Lemma adjacent_pairs_cons x y l :
  adjacent_pairs (x :: y :: l) = (x, y) :: adjacent_pairs (y :: l).
Proof. reflexivity. Qed.

Lemma adjacent_pairs_tail p z l :
  In p (adjacent_pairs l) -> In p (adjacent_pairs (z :: l)).
Proof.
  destruct l as [|y l]; [intros []|].
  rewrite adjacent_pairs_cons. now right.
Qed.

Lemma adjacent_pairs_In x y l :
  In (x, y) (adjacent_pairs l) -> In x l /\ In y l.
Proof.
  unfold adjacent_pairs. intros Hin. split.
  - eapply in_combine_l; eauto.
  - apply in_combine_r in Hin. destruct l; simpl in *; auto.
Qed.

Lemma merge_ref_cons2 x y l a b n :
  merge_ref (x :: y :: l) a b n =
  if (x =? a) && (y =? b) then n :: merge_ref l a b n
  else x :: merge_ref (y :: l) a b n.
Proof. reflexivity. Qed.

Lemma merge_ref_head y l a b n :
  exists t, merge_ref (y :: l) a b n = n :: t
            \/ merge_ref (y :: l) a b n = y :: t.
Proof.
  destruct l as [|z l]; simpl; [eauto|].
  destruct ((y =? a) && (z =? b)); eauto.
Qed.

Lemma merge_ref_Forall (P : Z -> Prop) a b n l :
  P n -> Forall P l -> Forall P (merge_ref l a b n).
Proof.
  intros Hn. induction l as [|x|x y l IH1 IH2] using list_ind2; intros Hl.
  - constructor.
  - assumption.
  - rewrite merge_ref_cons2. inversion Hl as [|? ? Hx Hyl]; subst.
    inversion Hyl as [|? ? Hy Hl']; subst.
    destruct ((x =? a) && (y =? b)); constructor; auto.
Qed.

(** Two old tokens that end up side by side were side by side before, and
    they are not the merged pair. *)
Lemma merge_ref_adjacent a b n l : forall x y,
  In (x, y) (adjacent_pairs (merge_ref l a b n)) -> x <> n -> y <> n ->
  In (x, y) (adjacent_pairs l) /\ (x, y) <> (a, b).
Proof.
  induction l as [|x0|x0 y0 l IH1 IH2] using list_ind2; intros x y Hin Hx Hy.
  - destruct Hin.
  - destruct Hin.
  - rewrite merge_ref_cons2 in Hin.
    destruct ((x0 =? a) && (y0 =? b)) eqn:Hm.
    + destruct (merge_ref l a b n) as [|h t] eqn:Hl; [destruct Hin|].
      rewrite adjacent_pairs_cons in Hin.
      destruct Hin as [[= <- _]|Hin]; [congruence|].
      destruct (IH1 x y Hin Hx Hy) as [Hadj Hne].
      split; [|assumption]. now do 2 apply adjacent_pairs_tail.
    + destruct (merge_ref_head y0 l a b n) as (t & [Hh|Hh]);
        rewrite Hh in *; rewrite adjacent_pairs_cons in Hin.
      * destruct Hin as [[= _ <-]|Hin]; [congruence|].
        destruct (IH2 x y Hin Hx Hy) as [Hadj Hne].
        split; [|assumption]. now apply adjacent_pairs_tail.
      * destruct Hin as [[= <- <-]|Hin].
        -- split; [rewrite adjacent_pairs_cons; now left|].
           intros [= -> ->]. rewrite !Z.eqb_refl in Hm. discriminate.
        -- destruct (IH2 x y Hin Hx Hy) as [Hadj Hne].
           split; [|assumption]. now apply adjacent_pairs_tail.
Qed.

(** Replacing a pair by a token that expands to the concatenation of the
    pair's expansions leaves the expansion of the sequence unchanged. *)
Lemma merge_ref_join (vocab : Dict.t Z (list Z)) a b n va vb l :
  Dict.get vocab a = Some va -> Dict.get vocab b = Some vb ->
  Dict.get vocab n = Some (va ++ vb) ->
  bytes_join (map (Dict.get vocab) (merge_ref l a b n)) =
  bytes_join (map (Dict.get vocab) l).
Proof.
  intros Ha Hb Hn.
  induction l as [|x|x y l IH1 IH2] using list_ind2; try reflexivity.
  rewrite merge_ref_cons2.
  destruct (Z.eqb_spec x a) as [->|Hxa]; cbn [andb];
    [destruct (Z.eqb_spec y b) as [->|Hyb]|].
  - cbn [map bytes_join]. rewrite Ha, Hb, Hn, IH1.
    destruct (bytes_join (map (Dict.get vocab) l)); simpl;
      [now rewrite app_assoc | reflexivity].
  - change (map (Dict.get vocab) (a :: merge_ref (y :: l) a b n))
      with (Dict.get vocab a
            :: map (Dict.get vocab) (merge_ref (y :: l) a b n)).
    cbn [bytes_join]. rewrite IH2. reflexivity.
  - change (map (Dict.get vocab) (x :: merge_ref (y :: l) a b n))
      with (Dict.get vocab x
            :: map (Dict.get vocab) (merge_ref (y :: l) a b n)).
    cbn [bytes_join]. rewrite IH2. reflexivity.
Qed.

(** ** The invariant of the training loop *)

Lemma In_range n t : In t (range n) <-> 0 <= t < n.
Proof.
  unfold range. rewrite in_map_iff. split.
  - intros (k & <- & Hk). apply in_seq in Hk. lia.
  - intros Ht. exists (Z.to_nat t). rewrite in_seq. lia.
Qed.

Lemma range_succ n : 0 <= n -> range (n + 1) = range n ++ [n].
Proof.
  intros Hn. unfold range.
  replace (Z.to_nat (n + 1)) with (S (Z.to_nat n)) by lia.
  rewrite seq_S, map_app. simpl. do 3 f_equal. lia.
Qed.

Lemma get_in_range (d : Dict.t Z (list Z)) n t :
  Dict.keys d = range n -> 0 <= t < n -> exists v, Dict.get d t = Some v.
Proof.
  intros Hk Ht. destruct (Dict.get d t) as [v|] eqn:Hg; [eauto|].
  apply get_None_iff in Hg. rewrite Hk, In_range in Hg. lia.
Qed.

Lemma get_out_of_range (d : Dict.t Z (list Z)) n :
  Dict.keys d = range n -> Dict.get d n = None.
Proof. intros Hk. apply get_None_iff. rewrite Hk, In_range. lia. Qed.

Lemma init_vocab_eq : init_vocab = map (fun x => (x, [x])) (range 256).
Proof. vm_compute. reflexivity. Qed.

Lemma get_singletons (l : list Z) (t : Z) :
  In t l -> Dict.get (map (fun x => (x, [x])) l) t = Some [t].
Proof.
  induction l as [|x l IH]; simpl; [tauto|].
  unfold key_eqb, PyEq_Z. destruct (Z.eqb_spec x t) as [->|Hne]; [reflexivity|].
  intros [->|Hin]; [congruence|auto].
Qed.

Lemma train_inv_init indices :
  Forall (fun t => 0 <= t < 256) indices -> train_inv 0 (init_locals indices).
Proof.
  intros Hb. constructor; cbn [init_locals l_indices l_merges l_vocab].
  - lia.
  - assumption.
  - rewrite init_vocab_eq. unfold Dict.keys. rewrite map_map.
    change (256 + 0) with 256. exact (map_id (range 256)).
  - intros t Ht. rewrite init_vocab_eq. now apply get_singletons, In_range.
  - reflexivity.
  - constructor.
  - constructor.
  - intros p [].
Qed.

Lemma train_step_Ok i st st' :
  train_step i st = Ok st' ->
  exists a b va vb,
    select_pair (l_indices st) = Ok (a, b)
    /\ Dict.get (l_vocab st) a = Some va
    /\ Dict.get (l_vocab st) b = Some vb
    /\ st' = {| l_indices := merge (l_indices st) (a, b) (256 + i);
                l_merges := Dict.set (l_merges st) (a, b) (256 + i);
                l_vocab := Dict.set (l_vocab st) (256 + i) (va ++ vb) |}.
Proof.
  unfold train_step, Dict.getitem.
  destruct (select_pair (l_indices st)) as [[a b]|e]; simpl; [|discriminate].
  destruct (Dict.get (l_vocab st) a) as [va|] eqn:Ha; simpl; [|discriminate].
  destruct (Dict.get (l_vocab st) b) as [vb|] eqn:Hb; simpl; [|discriminate].
  intros [= <-]. exists a, b, va, vb. repeat split; assumption.
Qed.

(** What the invariant gives about the pair a pass selects. *)
Lemma selected_pair_fresh i st a b :
  train_inv i st -> select_pair (l_indices st) = Ok (a, b) ->
  0 <= a < 256 + i /\ 0 <= b < 256 + i
  /\ Dict.get (l_merges st) (a, b) = None
  /\ Dict.get (l_vocab st) (256 + i) = None.
Proof.
  intros Hinv Hsel.
  destruct (select_pair_first_max _ _ Hsel) as [Hin _].
  destruct (adjacent_pairs_In _ _ _ Hin) as [Ha Hb].
  pose proof (inv_tokens _ _ Hinv) as Htok. rewrite Forall_forall in Htok.
  split; [auto|]. split; [auto|]. split.
  - apply get_None_iff. intros Hk. exact (inv_merged _ _ Hinv _ Hk Hin).
  - apply get_out_of_range, (inv_vocab_keys _ _ Hinv).
Qed.

Lemma train_step_inv i st st' :
  train_inv i st -> train_step i st = Ok st' -> train_inv (i + 1) st'.
Proof.
  intros Hinv Hstep.
  destruct (train_step_Ok _ _ _ Hstep)
    as (a & b & va & vb & Hsel & Ha & Hb & ->).
  destruct (selected_pair_fresh _ _ _ _ Hinv Hsel)
    as (Hra & Hrb & Hfresh & Hnew).
  pose proof (inv_nonneg _ _ Hinv) as Hi.
  pose proof (inv_tokens _ _ Hinv) as Htok.
  pose proof (inv_rules _ _ Hinv) as Hrules.
  remember (256 + i) as n eqn:Hn.
  assert (Hget : forall t, t <> n ->
            Dict.get (Dict.set (l_vocab st) n (va ++ vb)) t
            = Dict.get (l_vocab st) t)
    by (intros t Ht; apply get_set_neq; congruence).
  constructor; simpl.
  - lia.
  - rewrite merge_eq_ref. apply merge_ref_Forall; [lia|].
    eapply Forall_impl; [|exact Htok]. intros t Ht. simpl in Ht. lia.
  - rewrite (set_fresh (l_vocab st)) by assumption.
    unfold Dict.keys. rewrite map_app.
    fold (Dict.keys (l_vocab st)).
    rewrite (inv_vocab_keys _ _ Hinv), <- Hn. simpl.
    replace (256 + (i + 1)) with (n + 1) by lia.
    rewrite range_succ by lia. reflexivity.
  - intros t Ht. rewrite Hget by lia. now apply (inv_vocab_base _ _ Hinv).
  - rewrite (set_fresh (l_merges st)) by assumption.
    unfold Dict.values. rewrite map_app.
    fold (Dict.values (l_merges st)). rewrite (inv_merges_values _ _ Hinv).
    rewrite range_succ, map_app by lia. simpl. now rewrite Hn.
  - rewrite (set_fresh (l_merges st)) by assumption.
    unfold Dict.keys. rewrite map_app.
    apply NoDup_app.
    + exact (inv_merges_keys _ _ Hinv).
    + repeat constructor. intros [].
    + intros p Hp [<-|[]]. apply get_None_iff in Hfresh. contradiction.
  - rewrite (set_fresh (l_merges st)) by assumption. unfold Dict.items.
    apply Forall_app. split.
    + eapply Forall_impl; [|exact Hrules].
      intros [[a' b'] n'] (Ha' & Hb' & Hn' & va' & vb' & Hga & Hgb & Hgn).
      repeat (split; [lia|]). exists va', vb'.
      rewrite !Hget by lia. auto.
    + constructor; [|constructor].
      repeat (split; [lia|]). exists va, vb.
      rewrite !Hget by lia. rewrite get_set_eq. auto.
  - intros [x y] Hk Hadj.
    rewrite (set_fresh (l_merges st)) in Hk by assumption.
    unfold Dict.keys in Hk.
    rewrite map_app, in_app_iff in Hk. rewrite merge_eq_ref in Hadj. simpl in *.
    destruct Hk as [Hk|[[= <- <-]|[]]].
    + assert (Hxy : x < n /\ y < n).
      { apply in_map_iff in Hk as ([[x' y'] n'] & [= -> ->] & Hitem).
        rewrite Forall_forall in Hrules.
        specialize (Hrules _ Hitem). simpl in Hrules. lia. }
      destruct (merge_ref_adjacent _ _ _ _ _ _ Hadj) as [Hold _]; try lia.
      exact (inv_merged _ _ Hinv _ Hk Hold).
    + destruct (merge_ref_adjacent _ _ _ _ _ _ Hadj) as [_ Hne]; try lia.
      congruence.
Qed.

Lemma train_step_join i st st' :
  train_inv i st -> train_step i st = Ok st' ->
  bytes_join (map (Dict.get (l_vocab st')) (l_indices st')) =
  bytes_join (map (Dict.get (l_vocab st)) (l_indices st)).
Proof.
  intros Hinv Hstep.
  destruct (train_step_Ok _ _ _ Hstep)
    as (a & b & va & vb & Hsel & Ha & Hb & ->).
  destruct (selected_pair_fresh _ _ _ _ Hinv Hsel)
    as (Hra & Hrb & Hfresh & Hnew).
  pose proof (inv_tokens _ _ Hinv) as Htok. rewrite Forall_forall in Htok.
  simpl. remember (256 + i) as n eqn:Hn.
  rewrite merge_eq_ref. simpl.
  rewrite (merge_ref_join _ a b n va vb).
  - f_equal. apply map_ext_in. intros t Ht. apply get_set_neq.
    specialize (Htok t Ht). simpl in Htok. lia.
  - rewrite get_set_neq by lia. assumption.
  - rewrite get_set_neq by lia. assumption.
  - apply get_set_eq.
Qed.

(** A pass never changes the expansion of a token that has one. *)
Lemma train_step_vocab i st st' t bs :
  train_inv i st -> train_step i st = Ok st' ->
  Dict.get (l_vocab st) t = Some bs -> Dict.get (l_vocab st') t = Some bs.
Proof.
  intros Hinv Hstep Hg.
  destruct (train_step_Ok _ _ _ Hstep)
    as (a & b & va & vb & Hsel & Ha & Hb & ->).
  destruct (selected_pair_fresh _ _ _ _ Hinv Hsel) as (_ & _ & _ & Hnew).
  simpl. rewrite get_set_neq; [assumption|]. congruence.
Qed.

(** A pass returns exactly when there are at least two tokens, and otherwise
    raises [ValueError]: the look-ups in [vocab] cannot fail. *)
Lemma train_step_progress i st :
  train_inv i st ->
  ((2 <= length (l_indices st))%nat -> exists st', train_step i st = Ok st')
  /\ ((length (l_indices st) < 2)%nat -> train_step i st = Raise ValueError).
Proof.
  intros Hinv. split; intros Hlen.
  - destruct (select_pair_returns _ Hlen) as ([a b] & Hsel).
    destruct (selected_pair_fresh _ _ _ _ Hinv Hsel) as (Hra & Hrb & _).
    destruct (get_in_range _ _ a (inv_vocab_keys _ _ Hinv) Hra) as [va Ha].
    destruct (get_in_range _ _ b (inv_vocab_keys _ _ Hinv) Hrb) as [vb Hb].
    unfold train_step, Dict.getitem. rewrite Hsel. simpl. rewrite Ha, Hb. simpl.
    eauto.
  - unfold train_step. now rewrite select_pair_raises.
Qed.

(** ** Runs of the training loop *)

Lemma train_loop_S n i st :
  train_loop (S n) i st = (st' <- train_step i st ;; train_loop n (i + 1) st').
Proof. reflexivity. Qed.

Lemma train_loop_app n m : forall i st,
  train_loop (n + m) i st =
  (st' <- train_loop n i st ;; train_loop m (i + Z.of_nat n) st').
Proof.
  induction n as [|n IH]; intros i st.
  - simpl. now rewrite Z.add_0_r.
  - change (S n + m)%nat with (S (n + m)). rewrite !train_loop_S.
    destruct (train_step i st) as [st1|e]; [|reflexivity].
    cbn [bind]. rewrite IH.
    replace (i + Z.of_nat (S n)) with (i + 1 + Z.of_nat n) by lia.
    reflexivity.
Qed.

(** A run that returns went through a returning run of every shorter
    length. *)
Lemma train_loop_prefix n j i st st' :
  train_loop n i st = Ok st' -> (j <= n)%nat ->
  exists st_j, train_loop j i st = Ok st_j
               /\ train_loop (n - j) (i + Z.of_nat j) st_j = Ok st'.
Proof.
  intros Hrun Hj. replace n with (j + (n - j))%nat in Hrun by lia.
  rewrite train_loop_app in Hrun.
  destruct (train_loop j i st) as [st_j|e]; [|discriminate].
  exists st_j. auto.
Qed.

Lemma train_loop_inv n : forall i st st',
  train_inv i st -> train_loop n i st = Ok st' ->
  train_inv (i + Z.of_nat n) st'
  /\ bytes_join (map (Dict.get (l_vocab st')) (l_indices st')) =
     bytes_join (map (Dict.get (l_vocab st)) (l_indices st))
  /\ l_merges st' = l_merges st ++ learned n i st
  /\ (forall t bs, Dict.get (l_vocab st) t = Some bs ->
                   Dict.get (l_vocab st') t = Some bs).
Proof.
  induction n as [|n IH]; intros i st st' Hinv Hrun.
  - injection Hrun as <-. rewrite Z.add_0_r. simpl. rewrite app_nil_r. auto.
  - rewrite train_loop_S in Hrun.
    destruct (train_step i st) as [st1|e] eqn:Hstep; [|discriminate].
    cbn [bind] in Hrun.
    pose proof (train_step_inv _ _ _ Hinv Hstep) as Hinv1.
    destruct (IH _ _ _ Hinv1 Hrun) as (Hinv' & Hjoin & Hm & Hv).
    split; [|split; [|split]].
    + replace (i + Z.of_nat (S n)) with (i + 1 + Z.of_nat n) by lia. assumption.
    + rewrite Hjoin. now apply (train_step_join i).
    + rewrite Hm. cbn [learned]. rewrite Hstep.
      destruct (train_step_Ok _ _ _ Hstep)
        as (a & b & va & vb & Hsel & _ & _ & ->).
      destruct (selected_pair_fresh _ _ _ _ Hinv Hsel) as (_ & _ & Hfresh & _).
      rewrite Hsel. cbn [l_merges].
      rewrite (set_fresh (l_merges st)) by assumption.
      now rewrite <- app_assoc.
    + intros t bs Hg. apply Hv. now apply (train_step_vocab i st).
Qed.

(** The pairs of the rules learned by a run, returning or not, are new with
    respect to the rules present before and to each other. *)
Lemma learned_NoDup n : forall i st,
  train_inv i st ->
  NoDup (Dict.keys (l_merges st) ++ map fst (learned n i st)).
Proof.
  induction n as [|n IH]; intros i st Hinv.
  - simpl. rewrite app_nil_r. exact (inv_merges_keys _ _ Hinv).
  - cbn [learned].
    destruct (select_pair (l_indices st)) as [p|e] eqn:Hsel;
      [|simpl; rewrite app_nil_r; exact (inv_merges_keys _ _ Hinv)].
    destruct (train_step i st) as [st1|e] eqn:Hstep;
      [|simpl; rewrite app_nil_r; exact (inv_merges_keys _ _ Hinv)].
    pose proof (IH _ _ (train_step_inv _ _ _ Hinv Hstep)) as Hnd.
    destruct (train_step_Ok _ _ _ Hstep)
      as (a & b & va & vb & Hsel' & _ & _ & ->).
    rewrite Hsel in Hsel'. injection Hsel' as ->.
    destruct (selected_pair_fresh _ _ _ _ Hinv Hsel) as (_ & _ & Hfresh & _).
    cbn [l_merges] in Hnd.
    rewrite (set_fresh (l_merges st)) in Hnd |- * by assumption.
    unfold Dict.keys in *. rewrite map_app, <- app_assoc in Hnd. exact Hnd.
Qed.

(** A run raises only [ValueError], and only from a pass that finds fewer
    than two tokens. *)
Lemma train_loop_raises n : forall i st e,
  train_inv i st -> train_loop n i st = Raise e ->
  e = ValueError
  /\ exists j st_j, (j < n)%nat /\ train_loop j i st = Ok st_j
                    /\ (length (l_indices st_j) < 2)%nat.
Proof.
  induction n as [|n IH]; intros i st e Hinv Hrun; [discriminate|].
  rewrite train_loop_S in Hrun.
  destruct (train_step_progress i st Hinv) as [Hok Hfail].
  destruct (lt_dec (length (l_indices st)) 2) as [Hlen|Hlen].
  - rewrite (Hfail Hlen) in Hrun. injection Hrun as <-.
    split; [reflexivity|]. exists O, st. repeat split; [lia|assumption].
  - destruct Hok as [st1 Hstep]; [lia|]. rewrite Hstep in Hrun.
    cbn [bind] in Hrun.
    destruct (IH _ _ _ (train_step_inv _ _ _ Hinv Hstep) Hrun)
      as (-> & j & st_j & Hj & Hrun_j & Hlen_j).
    split; [reflexivity|]. exists (S j), st_j.
    rewrite train_loop_S, Hstep. repeat split; [lia|assumption|assumption].
Qed.

Lemma train_bpe_Ok string num_merges params :
  train_bpe string num_merges = Ok params ->
  exists indices st,
    str_encode string = Ok indices
    /\ train_loop (Z.to_nat num_merges) 0 (init_locals indices) = Ok st
    /\ params = {| vocab := l_vocab st; merges := l_merges st |}.
Proof.
  unfold train_bpe.
  destruct (str_encode string) as [indices|e] eqn:Henc; [|discriminate].
  cbn [bind].
  destruct (train_loop _ 0 (init_locals indices)) as [st|e] eqn:Hrun;
    [|discriminate].
  intros [= <-]. eauto.
Qed.

Lemma train_inv_run string indices n st :
  str_encode string = Ok indices ->
  train_loop n 0 (init_locals indices) = Ok st ->
  train_inv (Z.of_nat n) st.
Proof.
  intros Henc Hrun.
  apply (train_loop_inv n 0 (init_locals indices)); [|assumption].
  apply train_inv_init. eapply str_encode_bytes; eauto.
Qed.

(** ** Expansions *)

Lemma bytes_join_base (v : Dict.t Z (list Z)) l :
  (forall t, 0 <= t < 256 -> Dict.get v t = Some [t]) ->
  Forall (fun t => 0 <= t < 256) l ->
  bytes_join (map (Dict.get v) l) = Ok l.
Proof.
  intros Hbase Hl. induction Hl as [|t l Ht Hl IH]; [reflexivity|].
  cbn [map bytes_join]. rewrite (Hbase t Ht), IH. reflexivity.
Qed.

Lemma length_range n : length (range n) = Z.to_nat n.
Proof. unfold range. now rewrite length_map, length_seq. Qed.

(** ** The pair selected at each pass of a run *)

Lemma train_loop_one i st : train_loop 1 i st = train_step i st.
Proof. simpl. destruct (train_step i st); reflexivity. Qed.

Lemma length_merges i st :
  train_inv i st -> length (l_merges st) = Z.to_nat i.
Proof.
  intros Hinv. rewrite <- (length_map snd). fold (Dict.values (l_merges st)).
  now rewrite (inv_merges_values _ _ Hinv), length_map, length_range.
Qed.

Lemma nth_error_snoc {A} (l : list A) (x : A) :
  nth_error (l ++ [x]) (length l) = Some x.
Proof. induction l as [|y l IH]; simpl; auto. Qed.

(** What pass [j] of a run on the bytes [indices] does, given that it
    completes. *)
Lemma train_pass_first_max string indices j st' :
  str_encode string = Ok indices ->
  train_loop (S j) 0 (init_locals indices) = Ok st' ->
  exists st_j pair,
    train_loop j 0 (init_locals indices) = Ok st_j
    /\ select_pair (l_indices st_j) = Ok pair
    /\ first_max (l_indices st_j) pair
    /\ (forall q, counts_get (count_pairs (l_indices st_j)) q =
                  occurrences q (adjacent_pairs (l_indices st_j)))
    /\ l_indices st' = merge (l_indices st_j) pair (256 + Z.of_nat j)
    /\ nth_error (Dict.items (l_merges st')) j
       = Some (pair, 256 + Z.of_nat j).
Proof.
  intros Henc Hrun.
  destruct (train_loop_prefix (S j) j 0 _ _ Hrun) as (st_j & Hj & Hlast);
    [lia|].
  replace (S j - j)%nat with 1%nat in Hlast by lia.
  rewrite train_loop_one, Z.add_0_l in Hlast.
  pose proof (train_inv_run _ _ _ _ Henc Hj) as Hinv.
  destruct (train_step_first_max _ _ _ Hlast)
    as (pair & Hsel & Hmax & Htable & Hind & Hmerges).
  exists st_j, pair. repeat (split; [assumption|]).
  destruct pair as [a b].
  destruct (selected_pair_fresh _ _ _ _ Hinv Hsel) as (_ & _ & Hfresh & _).
  unfold Dict.items. rewrite Hmerges, (set_fresh (l_merges st_j)) by assumption.
  pose proof (nth_error_snoc (l_merges st_j) ((a, b), 256 + Z.of_nat j))
    as Hnth.
  rewrite (length_merges _ _ Hinv), Nat2Z.id in Hnth. exact Hnth.
Qed.

(** C3: in a run of [train_bpe] on a corpus, every pass [j] that completes
    starts from the token sequence left by the [j] passes before it, counts
    every adjacent pair of that sequence, selects a pair whose count is
    maximal and whose first occurrence in the left-to-right scan is the
    earliest among the pairs of that count, merges that pair into the token
    [256 + j] and records it as rule number [j] of [merges]; and when
    [train_bpe] returns, rule number [j] of the returned [merges], for every
    [j] below [num_merges], is the pair so selected at pass [j].  The pair is
    the value of the function [select_pair] on the sequence, so the choice is
    deterministic. *)
Theorem train_bpe_selects_first_max string indices :
  str_encode string = Ok indices ->
  (forall j st',
      train_loop (S j) 0 (init_locals indices) = Ok st' ->
      exists st_j pair,
        train_loop j 0 (init_locals indices) = Ok st_j
        /\ select_pair (l_indices st_j) = Ok pair
        /\ first_max (l_indices st_j) pair
        /\ (forall q, counts_get (count_pairs (l_indices st_j)) q =
                      occurrences q (adjacent_pairs (l_indices st_j)))
        /\ l_indices st' = merge (l_indices st_j) pair (256 + Z.of_nat j)
        /\ nth_error (Dict.items (l_merges st')) j
           = Some (pair, 256 + Z.of_nat j))
  /\ (forall num_merges params,
        train_bpe string num_merges = Ok params ->
        forall j, (j < Z.to_nat num_merges)%nat ->
        exists st_j pair,
          train_loop j 0 (init_locals indices) = Ok st_j
          /\ select_pair (l_indices st_j) = Ok pair
          /\ first_max (l_indices st_j) pair
          /\ nth_error (Dict.items (merges params)) j
             = Some (pair, 256 + Z.of_nat j)).
Proof.
  intros Henc. split.
  - intros j st' Hrun. exact (train_pass_first_max _ _ _ _ Henc Hrun).
  - intros num_merges params Htrain j Hj.
    destruct (train_bpe_Ok _ _ _ Htrain) as (ind' & st & Henc' & Hrun & ->).
    rewrite Henc in Henc'. injection Henc' as <-.
    destruct (train_loop_prefix _ (S j) 0 _ _ Hrun) as (st1 & Hrun1 & Hrest);
      [lia|].
    destruct (train_pass_first_max _ _ _ _ Henc Hrun1)
      as (st_j & pair & Hrun_j & Hsel & Hmax & _ & _ & Hnth).
    exists st_j, pair. repeat (split; [assumption|]).
    pose proof (train_inv_run _ _ _ _ Henc Hrun1) as Hinv1.
    destruct (train_loop_inv _ _ _ _ Hinv1 Hrest) as (_ & _ & Hm & _).
    cbn [merges]. unfold Dict.items in *. rewrite Hm.
    rewrite nth_error_app1; [assumption|].
    rewrite (length_merges _ _ Hinv1). lia.
Qed.

(** The first pass of the notebook's run: [(116,104)] and [(104,101)] both
    occur twice in the sentence, and the pair met first is the one made
    rule number 0. *)
Lemma train_bpe_selects_first_max_witness :
  str_encode cat_corpus = Ok cat_corpus
  /\ train_bpe cat_corpus 3 = Ok cat_params
  /\ occurrences (104, 101) (adjacent_pairs cat_corpus) = 2
  /\ occurrences (116, 104) (adjacent_pairs cat_corpus) = 2
  /\ nth_error (Dict.items (merges cat_params)) 0 = Some ((116, 104), 256)
  /\ first_max cat_corpus (116, 104).
Proof.
  assert (H1 : str_encode cat_corpus = Ok cat_corpus)
    by (vm_compute; reflexivity).
  assert (H2 : train_bpe cat_corpus 3 = Ok cat_params)
    by (vm_compute; reflexivity).
  split; [exact H1|]. split; [exact H2|].
  split; [vm_compute; reflexivity|]. split; [vm_compute; reflexivity|].
  split; [reflexivity|].
  assert (H3 : (0 < Z.to_nat 3)%nat) by (simpl; lia).
  destruct (proj2 (train_bpe_selects_first_max cat_corpus cat_corpus H1)
              3 cat_params H2 O H3)
    as (st_j & pair & Hrun & _ & Hmax & Hnth).
  injection Hrun as <-. injection Hnth as <-. exact Hmax.
Defined.

(** C10: after any number of passes of the training loop, the byte
    expansions of the current tokens, joined in order, are the UTF-8 bytes of
    the corpus (the tokens are all in the vocabulary, and each merge keeps
    the byte string the sequence stands for). *)
Theorem training_preserves_bytes string indices n st :
  str_encode string = Ok indices ->
  train_loop n 0 (init_locals indices) = Ok st ->
  bytes_join (map (Dict.get (l_vocab st)) (l_indices st)) = Ok indices.
Proof.
  intros Henc Hrun.
  pose proof (str_encode_bytes _ _ Henc) as Hb.
  destruct (train_loop_inv n 0 _ _ (train_inv_init _ Hb) Hrun)
    as (_ & Hjoin & _).
  rewrite Hjoin. cbn [init_locals l_vocab l_indices].
  apply bytes_join_base; [|assumption].
  exact (inv_vocab_base _ _ (train_inv_init _ Hb)).
Qed.

Lemma training_preserves_bytes_witness :
  str_encode cat_corpus = Ok cat_corpus
  /\ train_loop 3 0 (init_locals cat_corpus) = Ok cat_locals
  /\ bytes_join (map (Dict.get (l_vocab cat_locals)) (l_indices cat_locals))
     = Ok cat_corpus.
Proof.
  assert (H1 : str_encode cat_corpus = Ok cat_corpus)
    by (vm_compute; reflexivity).
  assert (H2 : train_loop 3 0 (init_locals cat_corpus) = Ok cat_locals)
    by (vm_compute; reflexivity).
  split; [exact H1|]. split; [exact H2|].
  exact (training_preserves_bytes cat_corpus cat_corpus 3 cat_locals H1 H2).
Defined.

Lemma rules_of_items (st : locals) i a b n :
  train_inv i st -> In ((a, b), n) (Dict.items (l_merges st)) ->
  exists va vb,
    Dict.get (l_vocab st) a = Some va /\ Dict.get (l_vocab st) b = Some vb
    /\ Dict.get (l_vocab st) n = Some (va ++ vb).
Proof.
  intros Hinv Hin. pose proof (inv_rules _ _ Hinv) as Hr.
  rewrite Forall_forall in Hr. specialize (Hr _ Hin). simpl in Hr.
  destruct Hr as (_ & _ & _ & Hr). exact Hr.
Qed.

(** C7: in the vocabulary that training returns, a token below 256 expands
    to the one byte it names; the merge rules are the rules learned, and the
    token of a rule expands to the expansion of the left token followed by
    that of the right token; and an expansion present after some number of
    passes is still the same after any larger number of passes. *)
Theorem vocabulary_invariant string num_merges params :
  train_bpe string num_merges = Ok params ->
  (forall t, 0 <= t < 256 -> Dict.get (vocab params) t = Some [t])
  /\ (exists indices,
        str_encode string = Ok indices
        /\ Dict.items (merges params) =
           learned (Z.to_nat num_merges) 0 (init_locals indices)
        /\ forall j m st_j st_m,
             (j <= m)%nat ->
             train_loop j 0 (init_locals indices) = Ok st_j ->
             train_loop m 0 (init_locals indices) = Ok st_m ->
             forall t bs, Dict.get (l_vocab st_j) t = Some bs ->
                          Dict.get (l_vocab st_m) t = Some bs)
  /\ (forall a b n,
        In ((a, b), n) (Dict.items (merges params)) ->
        exists va vb,
          Dict.get (vocab params) a = Some va
          /\ Dict.get (vocab params) b = Some vb
          /\ Dict.get (vocab params) n = Some (va ++ vb)).
Proof.
  intros Htrain.
  destruct (train_bpe_Ok _ _ _ Htrain) as (indices & st & Henc & Hrun & ->).
  pose proof (train_inv_run _ _ _ _ Henc Hrun) as Hinv.
  cbn [vocab merges]. split; [exact (inv_vocab_base _ _ Hinv)|]. split.
  - exists indices. split; [assumption|]. split.
    + pose proof (str_encode_bytes _ _ Henc) as Hb.
      destruct (train_loop_inv _ 0 _ _ (train_inv_init _ Hb) Hrun)
        as (_ & _ & Hm & _).
      exact Hm.
    + intros j m st_j st_m Hjm Hj Hm t bs Hg.
      destruct (train_loop_prefix m j 0 _ _ Hm Hjm) as (st_j' & Hj' & Hrest).
      rewrite Hj in Hj'. injection Hj' as <-.
      pose proof (train_inv_run _ _ _ _ Henc Hj) as Hinv_j.
      destruct (train_loop_inv _ _ _ _ Hinv_j Hrest) as (_ & _ & _ & Hv).
      now apply Hv.
  - intros a b n Hin. exact (rules_of_items _ _ _ _ _ Hinv Hin).
Qed.

Lemma vocabulary_invariant_witness :
  train_bpe cat_corpus 3 = Ok cat_params
  /\ Dict.get (vocab cat_params) 104 = Some [104]
  /\ exists va vb,
       Dict.get (vocab cat_params) 256 = Some va
       /\ Dict.get (vocab cat_params) 101 = Some vb
       /\ Dict.get (vocab cat_params) 257 = Some (va ++ vb).
Proof.
  assert (H : train_bpe cat_corpus 3 = Ok cat_params)
    by (vm_compute; reflexivity).
  destruct (vocabulary_invariant cat_corpus 3 cat_params H)
    as (Hbase & _ & Hrule).
  split; [exact H|]. split.
  - apply Hbase. lia.
  - apply Hrule. right; left. reflexivity.
Defined.

(** C8: when training with [num_merges = k] returns (all [k] passes were
    made), the vocabulary has exactly [256 + k] entries, with keys
    [0 .. 256 + k - 1] in this order, and the [k] rules carry the tokens
    [256, 257, .., 256 + k - 1] in the order in which they were learned. *)
Theorem vocabulary_growth string k params :
  0 <= k ->
  train_bpe string k = Ok params ->
  Dict.len (vocab params) = Z.to_nat (256 + k)
  /\ Dict.keys (vocab params) = range (256 + k)
  /\ Dict.len (merges params) = Z.to_nat k
  /\ Dict.values (merges params) = map (fun j => 256 + j) (range k)
  /\ exists indices,
       str_encode string = Ok indices
       /\ map snd (learned (Z.to_nat k) 0 (init_locals indices)) =
          map (fun j => 256 + j) (range k).
Proof.
  intros Hk Htrain.
  destruct (train_bpe_Ok _ _ _ Htrain) as (indices & st & Henc & Hrun & ->).
  pose proof (train_inv_run _ _ _ _ Henc Hrun) as Hinv.
  rewrite Z2Nat.id in Hinv by assumption.
  pose proof (inv_vocab_keys _ _ Hinv) as Hkeys.
  pose proof (inv_merges_values _ _ Hinv) as Hvals.
  cbn [vocab merges]. repeat split.
  - unfold Dict.len. rewrite <- (length_map fst). fold (Dict.keys (l_vocab st)).
    now rewrite Hkeys, length_range.
  - assumption.
  - unfold Dict.len. rewrite <- (length_map snd).
    fold (Dict.values (l_merges st)).
    now rewrite Hvals, length_map, length_range.
  - assumption.
  - exists indices. split; [assumption|].
    pose proof (str_encode_bytes _ _ Henc) as Hb.
    destruct (train_loop_inv _ 0 _ _ (train_inv_init _ Hb) Hrun)
      as (_ & _ & Hm & _).
    cbn [init_locals l_merges] in Hm. simpl in Hm. rewrite <- Hm.
    exact Hvals.
Qed.

Lemma vocabulary_growth_witness :
  0 <= 3
  /\ train_bpe cat_corpus 3 = Ok cat_params
  /\ Dict.len (vocab cat_params) = 259%nat
  /\ Dict.values (merges cat_params) = [256; 257; 258].
Proof.
  assert (H0 : 0 <= 3) by lia.
  assert (H : train_bpe cat_corpus 3 = Ok cat_params)
    by (vm_compute; reflexivity).
  destruct (vocabulary_growth cat_corpus 3 cat_params H0 H)
    as (Hlen & _ & _ & Hvals & _).
  split; [exact H0|]. split; [exact H|]. split; [exact Hlen | exact Hvals].
Defined.

(** C9: during a run of the training loop, whether it returns or raises,
    the pairs selected are pairwise distinct; the pair a pass selects is not
    yet a key of [merges], so recording its rule appends an entry and
    overwrites nothing; and the rules of a returning run are, in order, the
    rules learned, their keys pairwise distinct. *)
Theorem merged_pairs_distinct string indices n :
  str_encode string = Ok indices ->
  NoDup (map fst (learned n 0 (init_locals indices)))
  /\ (forall j st_j pair,
        train_loop j 0 (init_locals indices) = Ok st_j ->
        select_pair (l_indices st_j) = Ok pair ->
        Dict.get (l_merges st_j) pair = None)
  /\ (forall st,
        train_loop n 0 (init_locals indices) = Ok st ->
        Dict.items (l_merges st) = learned n 0 (init_locals indices)
        /\ NoDup (Dict.keys (l_merges st)))
  /\ (forall params,
        train_bpe string (Z.of_nat n) = Ok params ->
        Dict.items (merges params) = learned n 0 (init_locals indices)
        /\ NoDup (Dict.keys (merges params))).
Proof.
  intros Henc.
  pose proof (train_inv_init _ (str_encode_bytes _ _ Henc)) as Hinit.
  assert (Hrun : forall st,
            train_loop n 0 (init_locals indices) = Ok st ->
            Dict.items (l_merges st) = learned n 0 (init_locals indices)
            /\ NoDup (Dict.keys (l_merges st))).
  { intros st Hrun.
    destruct (train_loop_inv _ _ _ _ Hinit Hrun) as (Hinv & _ & Hm & _).
    split; [exact Hm | exact (inv_merges_keys _ _ Hinv)]. }
  split; [exact (learned_NoDup n 0 _ Hinit)|]. split; [|split].
  - intros j st_j [a b] Hj Hsel.
    pose proof (train_inv_run _ _ _ _ Henc Hj) as Hinv.
    now destruct (selected_pair_fresh _ _ _ _ Hinv Hsel) as (_ & _ & Hf & _).
  - exact Hrun.
  - intros params Htrain.
    destruct (train_bpe_Ok _ _ _ Htrain) as (ind' & st & Henc' & Hrun' & ->).
    rewrite Henc in Henc'. injection Henc' as <-.
    rewrite Nat2Z.id in Hrun'. cbn [merges]. now apply Hrun.
Qed.

Lemma merged_pairs_distinct_witness :
  str_encode cat_corpus = Ok cat_corpus
  /\ NoDup (map fst (learned 3 0 (init_locals cat_corpus)))
  /\ Dict.items (merges cat_params) = learned 3 0 (init_locals cat_corpus).
Proof.
  assert (H : str_encode cat_corpus = Ok cat_corpus)
    by (vm_compute; reflexivity).
  destruct (merged_pairs_distinct cat_corpus cat_corpus 3 H)
    as (Hnd & _ & _ & Hp).
  split; [exact H|]. split; [exact Hnd|].
  apply Hp. vm_compute. reflexivity.
Defined.

(** ** Outcome of [train_bpe] *)

Lemma str_encode_exn s e : str_encode s = Raise e -> e = UnicodeEncodeError.
Proof.
  induction s as [|c s IH]; simpl; [discriminate|].
  destruct (utf8_encode_char c); simpl; [|now intros [= <-]].
  destruct (str_encode s); simpl; [discriminate|].
  intros [= <-]. now apply IH.
Qed.

Lemma str_encode_returns s :
  is_str s -> Forall (fun c => is_surrogate c = false) s ->
  exists bs, str_encode s = Ok bs.
Proof.
  intros Hs Hns. induction s as [|c s IH]; simpl; [eauto|].
  inversion Hs as [|? ? Hc Hs']; inversion Hns as [|? ? Hnc Hns']; subst.
  destruct (IH Hs' Hns') as [bs ->].
  assert (Hsome : exists b, utf8_encode_char c = Some b).
  { unfold utf8_encode_char. rewrite Hnc.
    repeat match goal with
           | |- exists b, (if ?t then _ else _) = Some b =>
               destruct t eqn:?
           end; eauto; bool_to_prop; lia. }
  destruct Hsome as [b ->]. simpl. eauto.
Qed.

Lemma train_loop_short n j i st st_j :
  train_inv i st -> (j < n)%nat -> train_loop j i st = Ok st_j ->
  (length (l_indices st_j) < 2)%nat -> train_loop n i st = Raise ValueError.
Proof.
  intros Hinv Hj Hrun Hlen.
  replace n with (j + S (n - j - 1))%nat by lia.
  rewrite train_loop_app, Hrun. cbn [bind]. rewrite train_loop_S.
  destruct (train_loop_inv _ _ _ _ Hinv Hrun) as (Hinv_j & _).
  destruct (train_step_progress _ _ Hinv_j) as [_ Hfail].
  now rewrite (Hfail Hlen).
Qed.

(** C2, as the code has it: [train_bpe] always terminates, raising nothing
    but [UnicodeEncodeError] (corpus with a surrogate) or [ValueError]; for a
    corpus that encodes it returns exactly when each of the [k] passes finds
    at least two tokens, and then it has learned exactly [k] rules; there is
    no early stop: it raises [ValueError] exactly when one of the [k] passes
    finds fewer than two tokens.  On the empty corpus it returns the base
    vocabulary of 256 entries and no rule for [k = 0] and raises
    [ValueError] for every [k >= 1]. *)
Theorem train_bpe_outcome string k :
  0 <= k ->
  (forall e, train_bpe string k = Raise e ->
             e = UnicodeEncodeError \/ e = ValueError)
  /\ (forall params, train_bpe string k = Ok params ->
                     Dict.len (merges params) = Z.to_nat k)
  /\ (forall indices,
        str_encode string = Ok indices ->
        ((exists params, train_bpe string k = Ok params) <->
         (forall j st, (j < Z.to_nat k)%nat ->
                       train_loop j 0 (init_locals indices) = Ok st ->
                       (2 <= length (l_indices st))%nat))
        /\ (train_bpe string k = Raise ValueError <->
            (exists j st, (j < Z.to_nat k)%nat
                          /\ train_loop j 0 (init_locals indices) = Ok st
                          /\ (length (l_indices st) < 2)%nat)))
  /\ train_bpe [] 0 = Ok {| vocab := init_vocab; merges := Dict.empty |}
  /\ Dict.len init_vocab = 256%nat
  /\ (0 < k -> train_bpe [] k = Raise ValueError).
Proof.
  intros Hk.
  assert (Hraise : forall indices e,
            str_encode string = Ok indices ->
            train_bpe string k = Raise e ->
            e = ValueError
            /\ exists j st, (j < Z.to_nat k)%nat
                            /\ train_loop j 0 (init_locals indices) = Ok st
                            /\ (length (l_indices st) < 2)%nat).
  { intros indices e Henc. unfold train_bpe. rewrite Henc. cbn [bind].
    destruct (train_loop _ 0 (init_locals indices)) as [st|e'] eqn:Hrun;
      [discriminate|].
    intros [= <-].
    apply (train_loop_raises _ 0 (init_locals indices)); [|assumption].
    apply train_inv_init. eapply str_encode_bytes; eauto. }
  assert (Hshort : forall indices j st,
            str_encode string = Ok indices ->
            (j < Z.to_nat k)%nat ->
            train_loop j 0 (init_locals indices) = Ok st ->
            (length (l_indices st) < 2)%nat ->
            train_bpe string k = Raise ValueError).
  { intros indices j st Henc Hj Hrun Hlen. unfold train_bpe.
    rewrite Henc. cbn [bind].
    rewrite (train_loop_short (Z.to_nat k) j 0 (init_locals indices) st);
      auto.
    apply train_inv_init. eapply str_encode_bytes; eauto. }
  split; [|split; [|split; [|split; [|split]]]].
  - intros e Hr. destruct (str_encode string) as [indices|e'] eqn:Henc.
    + right. now destruct (Hraise indices e eq_refl Hr).
    + left. unfold train_bpe in Hr. rewrite Henc in Hr. injection Hr as <-.
      now apply (str_encode_exn string).
  - intros params Htrain.
    destruct (train_bpe_Ok _ _ _ Htrain) as (indices & st & Henc & Hrun & ->).
    pose proof (train_inv_run _ _ _ _ Henc Hrun) as Hinv.
    cbn [merges]. unfold Dict.len. rewrite <- (length_map snd).
    fold (Dict.values (l_merges st)).
    rewrite (inv_merges_values _ _ Hinv), length_map, length_range. lia.
  - intros indices Henc. split; split.
    + intros [params Htrain] j st Hj Hrun.
      destruct (lt_dec (length (l_indices st)) 2) as [Hlen|Hlen]; [|lia].
      rewrite (Hshort indices j st Henc Hj Hrun Hlen) in Htrain. discriminate.
    + intros Hall. destruct (train_bpe string k) as [params|e] eqn:Htrain;
        [eauto|].
      destruct (Hraise indices e Henc eq_refl)
        as (_ & j & st & Hj & Hrun & Hlen).
      specialize (Hall j st Hj Hrun). lia.
    + intros Hr. now destruct (Hraise indices _ Henc Hr).
    + intros (j & st & Hj & Hrun & Hlen). now apply (Hshort indices j st).
  - reflexivity.
  - vm_compute. reflexivity.
  - intros Hpos. unfold train_bpe. cbn [str_encode bind].
    rewrite (train_loop_short (Z.to_nat k) 0 0
               (init_locals []) (init_locals []));
      try reflexivity; try (simpl; lia).
    apply train_inv_init. constructor.
Qed.

Lemma train_bpe_outcome_witness :
  0 <= 3
  /\ Dict.len (merges cat_params) = 3%nat
  /\ train_bpe [] 3 = Raise ValueError.
Proof.
  assert (H0 : 0 <= 3) by lia.
  destruct (train_bpe_outcome cat_corpus 3 H0)
    as (_ & Hlen & _ & _ & _ & Hempty).
  split; [exact H0|]. split.
  - apply Hlen. vm_compute. reflexivity.
  - apply Hempty. lia.
Defined.

(** C2 as stated fails: on the empty corpus with one merge requested,
    [max] of the empty table raises. *)
Lemma train_bpe_empty_raises :
  train_bpe (str_of ""%string) 1 = Raise ValueError
  /\ ~ exists params, train_bpe (str_of ""%string) 1 = Ok params.
Proof.
  assert (H : train_bpe (str_of ""%string) 1 = Raise ValueError)
    by (vm_compute; reflexivity).
  split; [exact H|]. intros [params Hp]. rewrite H in Hp. discriminate.
Qed.

(** ** [BPETokenizer.encode] and [BPETokenizer.decode] *)

Lemma fold_left_apply_rules rules : forall indices,
  fold_left (fun indices item => merge indices (fst item) (snd item))
            rules indices
  = apply_rules rules indices.
Proof.
  induction rules as [|[p n] rules IH]; intros indices; simpl; auto.
Qed.

Lemma encode_eq params string :
  BPETokenizer.encode params string =
  (string_bytes <- str_encode string ;;
   Ok (apply_rules (Dict.items (merges params)) string_bytes)).
Proof.
  unfold BPETokenizer.encode.
  destruct (str_encode string); simpl; [|reflexivity].
  now rewrite fold_left_apply_rules.
Qed.

(** Rules whose token expands to the two expansions of its pair keep the
    byte string a sequence stands for. *)
Lemma apply_rules_join (v : Dict.t Z (list Z)) rules :
  Forall (fun item =>
            exists va vb,
              Dict.get v (fst (fst item)) = Some va
              /\ Dict.get v (snd (fst item)) = Some vb
              /\ Dict.get v (snd item) = Some (va ++ vb)) rules ->
  forall indices,
    bytes_join (map (Dict.get v) (apply_rules rules indices)) =
    bytes_join (map (Dict.get v) indices).
Proof.
  induction 1 as [|[[a b] n] rules (va & vb & Ha & Hb & Hn) Hrules IH];
    intros indices; simpl; [reflexivity|].
  rewrite IH, merge_eq_ref. simpl in *.
  now apply (merge_ref_join v a b n va vb).
Qed.

Lemma trained_rules string num_merges params :
  train_bpe string num_merges = Ok params ->
  (forall t, 0 <= t < 256 -> Dict.get (vocab params) t = Some [t])
  /\ Forall (fun item =>
               exists va vb,
                 Dict.get (vocab params) (fst (fst item)) = Some va
                 /\ Dict.get (vocab params) (snd (fst item)) = Some vb
                 /\ Dict.get (vocab params) (snd item) = Some (va ++ vb))
            (Dict.items (merges params)).
Proof.
  intros Htrain.
  destruct (train_bpe_Ok _ _ _ Htrain) as (indices & st & Henc & Hrun & ->).
  pose proof (train_inv_run _ _ _ _ Henc Hrun) as Hinv.
  cbn [vocab merges]. split; [exact (inv_vocab_base _ _ Hinv)|].
  apply Forall_forall. intros [[a b] n] Hin.
  exact (rules_of_items _ _ _ _ _ Hinv Hin).
Qed.

(** C1: with the parameters returned by [train_bpe] on any corpus and any
    number of merges, encoding a string that has a UTF-8 encoding returns
    tokens, and decoding these tokens returns the string. *)
Theorem decode_encode_roundtrip corpus num_merges params s string_bytes :
  train_bpe corpus num_merges = Ok params ->
  str_encode s = Ok string_bytes ->
  exists indices,
    BPETokenizer.encode params s = Ok indices
    /\ BPETokenizer.decode params indices = Ok s.
Proof.
  intros Htrain Henc.
  destruct (trained_rules _ _ _ Htrain) as [Hbase Hrules].
  rewrite encode_eq, Henc. cbn [bind].
  eexists. split; [reflexivity|].
  unfold BPETokenizer.decode.
  rewrite (apply_rules_join _ _ Hrules).
  rewrite (bytes_join_base _ _ Hbase (str_encode_bytes _ _ Henc)).
  cbn [bind]. now apply bytes_decode_str_encode.
Qed.

Lemma decode_encode_roundtrip_witness :
  train_bpe cat_corpus 3 = Ok cat_params
  /\ str_encode fox = Ok fox
  /\ exists indices,
       BPETokenizer.encode cat_params fox = Ok indices
       /\ BPETokenizer.decode cat_params indices = Ok fox.
Proof.
  assert (H1 : train_bpe cat_corpus 3 = Ok cat_params)
    by (vm_compute; reflexivity).
  assert (H2 : str_encode fox = Ok fox) by (vm_compute; reflexivity).
  split; [exact H1|]. split; [exact H2|].
  exact (decode_encode_roundtrip cat_corpus 3 cat_params fox fox H1 H2).
Defined.

(** C5, as the code has it: for a string without surrogate code points,
    [encode] returns; its result is the UTF-8 bytes of the string to which
    every entry of [merges] has been applied once by [merge], in the
    insertion order of [merges]; and for trained parameters that order is
    the order in which the rules were learned. *)
Theorem encode_applies_rules_in_order params string :
  is_str string ->
  Forall (fun c => is_surrogate c = false) string ->
  (exists string_bytes,
      str_encode string = Ok string_bytes
      /\ BPETokenizer.encode params string =
         Ok (apply_rules (Dict.items (merges params)) string_bytes))
  /\ (forall corpus num_merges indices,
        train_bpe corpus num_merges = Ok params ->
        str_encode corpus = Ok indices ->
        Dict.items (merges params) =
        learned (Z.to_nat num_merges) 0 (init_locals indices)).
Proof.
  intros Hs Hns. split.
  - destruct (str_encode_returns _ Hs Hns) as [bs Hbs].
    exists bs. split; [assumption|]. now rewrite encode_eq, Hbs.
  - intros corpus num_merges indices Htrain Henc.
    destruct (train_bpe_Ok _ _ _ Htrain) as (ind' & st & Henc' & Hrun & ->).
    rewrite Henc in Henc'. injection Henc' as <-.
    pose proof (str_encode_bytes _ _ Henc) as Hb.
    destruct (train_loop_inv _ 0 _ _ (train_inv_init _ Hb) Hrun)
      as (_ & _ & Hm & _).
    exact Hm.
Qed.

Lemma encode_applies_rules_in_order_witness :
  is_str fox
  /\ Forall (fun c => is_surrogate c = false) fox
  /\ BPETokenizer.encode cat_params fox =
     Ok [258; 113; 117; 105; 99; 107; 32; 98; 114; 111; 119; 110; 32; 102;
         111; 120].
Proof.
  assert (H1 : is_str fox).
  { unfold is_str. let v := eval vm_compute in fox in change fox with v.
    repeat (apply Forall_cons; [lia|]). apply Forall_nil. }
  assert (H2 : Forall (fun c => is_surrogate c = false) fox).
  { let v := eval vm_compute in fox in change fox with v.
    repeat (apply Forall_cons; [reflexivity|]). apply Forall_nil. }
  split; [exact H1|]. split; [exact H2|].
  destruct (encode_applies_rules_in_order cat_params fox H1 H2)
    as [(bs & Hbs & Henc) _].
  rewrite Henc. f_equal.
  assert (Hfox : str_encode fox = Ok fox) by (vm_compute; reflexivity).
  rewrite Hfox in Hbs. injection Hbs as <-.
  vm_compute. reflexivity.
Defined.

(** C5 as stated fails: a string holding a lone surrogate is a string, and
    [encode] raises on it. *)
Lemma encode_surrogate_raises :
  is_str [0xD800]
  /\ BPETokenizer.encode cat_params [0xD800] = Raise UnicodeEncodeError.
Proof.
  split; [unfold is_str; repeat constructor; lia|]. reflexivity.
Qed.

Lemma bytes_join_get (v : Dict.t Z (list Z)) indices :
  (forall t, In t indices -> Dict.get v t <> None) ->
  bytes_join (map (Dict.get v) indices) = Ok (expand v indices).
Proof.
  induction indices as [|t l IH]; intros Hall; [reflexivity|].
  cbn [map bytes_join expand flat_map].
  destruct (Dict.get v t) as [b|] eqn:Hg.
  - fold (expand v l). rewrite IH; [reflexivity|].
    intros t' Ht'. apply Hall. now right.
  - exfalso. apply (Hall t); [now left | assumption].
Qed.

Lemma bytes_join_missing (v : Dict.t Z (list Z)) indices :
  (exists t, In t indices /\ Dict.get v t = None) ->
  bytes_join (map (Dict.get v) indices) = Raise TypeError.
Proof.
  induction indices as [|t l IH]; intros (t' & Hin & Hg); [destruct Hin|].
  cbn [map bytes_join]. destruct (Dict.get v t) as [b|] eqn:Hgt; [|reflexivity].
  destruct Hin as [->|Hin]; [congruence|].
  rewrite IH by eauto. reflexivity.
Qed.

Lemma known_or_missing (v : Dict.t Z (list Z)) indices :
  (forall t, In t indices -> Dict.get v t <> None)
  \/ (exists t, In t indices /\ Dict.get v t = None).
Proof.
  induction indices as [|t l [IH|(t' & Hin & Hg)]].
  - left. intros t [].
  - destruct (Dict.get v t) as [b|] eqn:Hg.
    + left. intros t' [<-|Hin]; [congruence|auto].
    + right. exists t. split; [now left | assumption].
  - right. exists t'. split; [now right | assumption].
Qed.

(** C6: [decode] raises the error of a missing token ([TypeError], from
    joining a [None]) exactly when some token of the input is not a key of
    the vocabulary; otherwise it raises the decoding error
    ([UnicodeDecodeError]) exactly when the joined expansions are not valid
    UTF-8; otherwise it returns the string whose UTF-8 encoding the joined
    expansions are.  It raises nothing else. *)
Theorem decode_outcome params indices :
  (BPETokenizer.decode params indices = Raise TypeError <->
   exists t, In t indices /\ Dict.get (vocab params) t = None)
  /\ (BPETokenizer.decode params indices = Raise UnicodeDecodeError <->
      (forall t, In t indices -> Dict.get (vocab params) t <> None)
      /\ ~ valid_utf8 (expand (vocab params) indices))
  /\ (forall s,
        BPETokenizer.decode params indices = Ok s <->
        (forall t, In t indices -> Dict.get (vocab params) t <> None)
        /\ str_encode s = Ok (expand (vocab params) indices))
  /\ (forall e, BPETokenizer.decode params indices = Raise e ->
                e = TypeError \/ e = UnicodeDecodeError).
Proof.
  unfold BPETokenizer.decode, valid_utf8.
  destruct (known_or_missing (vocab params) indices) as [Hall|Hmiss].
  - rewrite (bytes_join_get _ _ Hall). cbn [bind].
    set (bs := expand (vocab params) indices).
    assert (Hnone : ~ exists t,
                        In t indices /\ Dict.get (vocab params) t = None)
      by (intros (t & Hin & Hg); exact (Hall t Hin Hg)).
    split; [|split; [|split]].
    + split; [|tauto]. intros Hd.
      apply bytes_decode_exn in Hd. discriminate.
    + split.
      * intros Hd. split; [assumption|]. intros [s Hs].
        apply bytes_decode_str_encode in Hs. congruence.
      * intros [_ Hinvalid].
        destruct (bytes_decode bs) as [s|e] eqn:Hd.
        -- exfalso. apply Hinvalid. exists s.
           now apply str_encode_bytes_decode.
        -- now rewrite (bytes_decode_exn _ _ Hd).
    + intros s. rewrite bytes_decode_Ok_iff. tauto.
    + intros e Hd. right. now apply (bytes_decode_exn bs).
  - rewrite (bytes_join_missing _ _ Hmiss). cbn [bind].
    assert (Hnot : ~ forall t,
                       In t indices -> Dict.get (vocab params) t <> None).
    { destruct Hmiss as (t & Hin & Hg). intros Hall. exact (Hall t Hin Hg). }
    split; [|split; [|split]].
    + tauto.
    + split; [discriminate | tauto].
    + intros s. split; [discriminate | tauto].
    + intros e [= <-]. now left.
Qed.

(** * Further properties of the code *)

(** ** [merge]: lengths, absent pairs, undoing a merge *)

Lemma merge_ref_length a b n l :
  (length (merge_ref l a b n) <= length l)%nat
  /\ (length l <= 2 * length (merge_ref l a b n))%nat.
Proof.
  induction l as [|x|x y l IH1 IH2] using list_ind2; try (simpl; lia).
  rewrite merge_ref_cons2.
  destruct ((x =? a) && (y =? b)); simpl length in *; lia.
Qed.

Lemma merge_ref_absent a b n l :
  ~ In (a, b) (adjacent_pairs l) -> merge_ref l a b n = l.
Proof.
  induction l as [|x|x y l IH1 IH2] using list_ind2; intros Hn;
    try reflexivity.
  rewrite merge_ref_cons2. rewrite adjacent_pairs_cons in Hn.
  destruct (Z.eqb_spec x a) as [->|Hxa]; cbn [andb];
    [destruct (Z.eqb_spec y b) as [->|Hyb]|].
  - exfalso. apply Hn. now left.
  - f_equal. apply IH2. intros Hin. apply Hn. now right.
  - f_equal. apply IH2. intros Hin. apply Hn. now right.
Qed.

Lemma merge_ref_shortens a b n l :
  In (a, b) (adjacent_pairs l) ->
  (length (merge_ref l a b n) < length l)%nat.
Proof.
  induction l as [|x|x y l IH1 IH2] using list_ind2; intros Hin;
    try destruct Hin.
  - injection H as -> ->. rewrite merge_ref_cons2, !Z.eqb_refl.
    pose proof (proj1 (merge_ref_length a b n l)). simpl. lia.
  - rewrite merge_ref_cons2.
    pose proof (proj1 (merge_ref_length a b n l)).
    destruct ((x =? a) && (y =? b)); simpl length; [lia|].
    specialize (IH2 H). simpl length in IH2. lia.
Qed.

Lemma merge_ref_unmerge a b n l :
  ~ In n l -> unmerge (a, b) n (merge_ref l a b n) = l.
Proof.
  unfold unmerge.
  induction l as [|x|x y l IH1 IH2] using list_ind2; intros Hn.
  - reflexivity.
  - simpl. destruct (Z.eqb_spec x n) as [->|]; [|reflexivity].
    exfalso. apply Hn. now left.
  - rewrite merge_ref_cons2.
    destruct (Z.eqb_spec x a) as [->|Hxa]; cbn [andb];
      [destruct (Z.eqb_spec y b) as [->|Hyb]|]; cbn [flat_map].
    + rewrite Z.eqb_refl, IH1; [reflexivity|].
      intros Hin. apply Hn. now right; right.
    + destruct (Z.eqb_spec a n) as [->|]; [exfalso; apply Hn; now left|].
      rewrite IH2; [reflexivity|]. intros Hin. apply Hn. now right.
    + destruct (Z.eqb_spec x n) as [->|]; [exfalso; apply Hn; now left|].
      rewrite IH2; [reflexivity|]. intros Hin. apply Hn. now right.
Qed.

(** X1: [merge] never lengthens the sequence and at most halves it; in
    particular it returns the empty list only on the empty list. *)
Theorem merge_length_bounds indices pair new_index :
  (length (merge indices pair new_index) <= length indices)%nat
  /\ (length indices <= 2 * length (merge indices pair new_index))%nat
  /\ (merge indices pair new_index = [] <-> indices = []).
Proof.
  rewrite merge_eq_ref.
  destruct (merge_ref_length (fst pair) (snd pair) new_index indices)
    as [Hle Hge].
  split; [assumption|]. split; [assumption|]. split; intros Hnil.
  - rewrite Hnil in Hge. destruct indices; [reflexivity|simpl in Hge; lia].
  - now subst.
Qed.

(** X2: when the pair occurs nowhere as two adjacent tokens, [merge]
    returns its input unchanged; when it occurs, the result is strictly
    shorter. *)
Theorem merge_absent_or_shorter indices pair new_index :
  (~ In pair (adjacent_pairs indices) ->
   merge indices pair new_index = indices)
  /\ (In pair (adjacent_pairs indices) ->
      (length (merge indices pair new_index) < length indices)%nat).
Proof.
  rewrite merge_eq_ref. destruct pair as [a b]. split.
  - apply merge_ref_absent.
  - apply merge_ref_shortens.
Qed.

Lemma merge_absent_or_shorter_witness :
  (~ In (2, 1) (adjacent_pairs [1; 2; 3])
   /\ merge [1; 2; 3] (2, 1) 9 = [1; 2; 3])
  /\ (In (2, 3) (adjacent_pairs [1; 2; 3])
      /\ (length (merge [1; 2; 3] (2, 3) 9)%Z < length [1; 2; 3]%Z)%nat).
Proof.
  assert (H1 : ~ In (2, 1) (adjacent_pairs [1; 2; 3])).
  { simpl. intros [H|[H|[]]]; discriminate H. }
  assert (H2 : In (2, 3) (adjacent_pairs [1; 2; 3]))
    by (simpl; right; left; reflexivity).
  split.
  - split; [exact H1|].
    exact (proj1 (merge_absent_or_shorter [1; 2; 3] (2, 1) 9) H1).
  - split; [exact H2|].
    exact (proj2 (merge_absent_or_shorter [1; 2; 3] (2, 3) 9) H2).
Defined.

(** X3: when the new token differs from both tokens of the pair, the pair
    occurs nowhere as two adjacent tokens of the result, so that merging a
    second time changes nothing. *)
Theorem merge_removes_pair indices pair new_index :
  new_index <> fst pair -> new_index <> snd pair ->
  ~ In pair (adjacent_pairs (merge indices pair new_index))
  /\ merge (merge indices pair new_index) pair new_index =
     merge indices pair new_index.
Proof.
  intros Ha Hb. destruct pair as [a b]. simpl in Ha, Hb.
  assert (Hgone : ~ In (a, b)
                      (adjacent_pairs (merge indices (a, b) new_index))).
  { rewrite merge_eq_ref. cbn [fst snd]. intros Hin.
    destruct (merge_ref_adjacent _ _ _ _ _ _ Hin) as [_ Hne];
      congruence. }
  split; [exact Hgone|].
  rewrite (merge_eq_ref (merge indices (a, b) new_index)).
  now apply merge_ref_absent.
Qed.

Lemma merge_removes_pair_witness :
  9 <> fst (5, 5) /\ 9 <> snd (5, 5)
  /\ ~ In (5, 5) (adjacent_pairs (merge [5; 5; 5] (5, 5) 9))
  /\ merge (merge [5; 5; 5] (5, 5) 9) (5, 5) 9 = merge [5; 5; 5] (5, 5) 9.
Proof.
  assert (Ha : 9 <> fst (5, 5)) by (simpl; lia).
  assert (Hb : 9 <> snd (5, 5)) by (simpl; lia).
  split; [exact Ha|]. split; [exact Hb|].
  exact (merge_removes_pair [5; 5; 5] (5, 5) 9 Ha Hb).
Defined.

(** X4: a merge with a token that does not occur in the input loses
    nothing: putting the two tokens of the pair back for every occurrence of
    the new token gives the input again. *)
Theorem merge_unmerge indices pair new_index :
  ~ In new_index indices ->
  unmerge pair new_index (merge indices pair new_index) = indices.
Proof.
  intros Hn. rewrite merge_eq_ref. destruct pair as [a b].
  now apply merge_ref_unmerge.
Qed.

Lemma merge_unmerge_witness :
  ~ In 9 [1; 2; 3; 4; 2; 3; 5]
  /\ unmerge (2, 3) 9 (merge [1; 2; 3; 4; 2; 3; 5] (2, 3) 9)
     = [1; 2; 3; 4; 2; 3; 5].
Proof.
  assert (H : ~ In 9 [1; 2; 3; 4; 2; 3; 5]).
  { simpl. intros Hin. repeat destruct Hin as [Hin|Hin]; try discriminate Hin.
    exact Hin. }
  split; [exact H|].
  exact (merge_unmerge [1; 2; 3; 4; 2; 3; 5] (2, 3) 9 H).
Defined.

(** ** The frequency table of a pass *)

Lemma total_set (d : Dict.t (Z * Z) Z) p v :
  total (Dict.set d p v) = total d - counts_get d p + v.
Proof.
  unfold total, counts_get, Dict.values.
  induction d as [|[k c] d IH]; cbn [Dict.set Dict.get map fold_right].
  - cbn [snd]. lia.
  - destruct (key_eqb k p); cbn [map fold_right snd]; lia.
Qed.

Lemma total_incr d p : total (incr d p) = total d + 1.
Proof. unfold incr. rewrite total_set. unfold counts_get. lia. Qed.

Lemma count_keys_NoDup ps :
  NoDup (Dict.keys (fold_left incr ps Dict.empty))
  /\ total (fold_left incr ps Dict.empty) = Z.of_nat (length ps).
Proof.
  induction ps as [|p ps [IHk IHt]] using rev_ind; simpl.
  - split; [constructor | reflexivity].
  - rewrite fold_left_app. cbn [fold_left].
    rewrite keys_incr, total_incr, IHt, length_app. split; [|simpl; lia].
    destruct (Dict.get (fold_left incr ps Dict.empty) p) eqn:Hg;
      [assumption|].
    apply get_None_iff in Hg. apply NoDup_app; [assumption | |].
    + repeat constructor. intros [].
    + intros q Hq [<-|[]]. contradiction.
Qed.

Lemma length_adjacent_pairs indices :
  length (adjacent_pairs indices) = (length indices - 1)%nat.
Proof.
  unfold adjacent_pairs. rewrite length_combine.
  destruct indices; cbn [tl length]; lia.
Qed.

(** X5: the table a pass counts into has one entry for each distinct pair
    of adjacent tokens and no other; the entry of a pair holds the number of
    its occurrences; the counts add up to [len(indices) - 1]; and the table
    is empty exactly when there are fewer than two tokens. *)
Theorem count_pairs_table indices :
  NoDup (Dict.keys (count_pairs indices))
  /\ (forall q c,
        Dict.get (count_pairs indices) q = Some c <->
        In q (adjacent_pairs indices)
        /\ c = occurrences q (adjacent_pairs indices))
  /\ total (count_pairs indices) = Z.of_nat (length indices - 1)
  /\ (count_pairs indices = Dict.empty <-> (length indices < 2)%nat).
Proof.
  unfold count_pairs.
  destruct (count_table (adjacent_pairs indices)) as (Hcnt & Hkeys & _).
  destruct (count_keys_NoDup (adjacent_pairs indices)) as [Hnd Htot].
  set (d := fold_left incr (adjacent_pairs indices) Dict.empty) in *.
  split; [assumption|]. split; [|split].
  - intros q c. specialize (Hcnt q). unfold counts_get in Hcnt.
    rewrite <- Hkeys. split.
    + intros Hg. rewrite Hg in Hcnt. split; [|assumption].
      destruct (in_dec (fun x y => reflect_dec _ _ (pair_eqb_spec x y))
                       q (Dict.keys d)) as [Hq|Hq]; [assumption|].
      apply get_None_iff in Hq. congruence.
    + intros [Hq ->]. destruct (Dict.get d q) as [c|] eqn:Hg;
        [now rewrite Hcnt|].
      apply get_None_iff in Hg. contradiction.
  - now rewrite Htot, length_adjacent_pairs.
  - rewrite <- adjacent_pairs_nil. split; intros Hnil.
    + destruct (adjacent_pairs indices) as [|p ps]; [reflexivity|].
      exfalso. specialize (proj2 (Hkeys p) (or_introl eq_refl)).
      rewrite Hnil. intros [].
    + subst d. now rewrite Hnil.
Qed.

(** ** [train_bpe]: how many passes a corpus allows *)

Lemma train_step_length i st st' :
  train_step i st = Ok st' ->
  (length (l_indices st') < length (l_indices st))%nat
  /\ (length (l_indices st) <= 2 * length (l_indices st'))%nat.
Proof.
  intros Hstep.
  destruct (train_step_Ok _ _ _ Hstep) as (a & b & va & vb & Hsel & _ & _ & ->).
  destruct (select_pair_first_max _ _ Hsel) as [Hin _].
  cbn [l_indices]. rewrite merge_eq_ref. cbn [fst snd]. split.
  - now apply merge_ref_shortens.
  - apply merge_ref_length.
Qed.

Lemma train_loop_length n : forall i st st',
  train_loop n i st = Ok st' ->
  (length (l_indices st') + n <= length (l_indices st))%nat
  /\ (length (l_indices st) <= 2 ^ n * length (l_indices st'))%nat
  /\ (1 <= n -> 2 <= length (l_indices st))%nat.
Proof.
  induction n as [|n IH]; intros i st st' Hrun.
  - injection Hrun as <-. simpl. lia.
  - rewrite train_loop_S in Hrun.
    destruct (train_step i st) as [st1|e] eqn:Hstep; [|discriminate].
    cbn [bind] in Hrun.
    destruct (train_step_length _ _ _ Hstep) as [Hlt Hhalf].
    destruct (IH _ _ _ Hrun) as (Hle & Hpow & _).
    rewrite Nat.pow_succ_r'. split; [lia|]. split; [nia | lia].
Qed.

(** X6: every pass removes at least one token, so a corpus of [L] bytes
    allows fewer than [max(L, 1)] passes: with [num_merges] positive and at
    least [L], [train_bpe] raises [ValueError]. *)
Theorem train_bpe_too_many_merges string indices num_merges :
  str_encode string = Ok indices ->
  0 < num_merges ->
  Z.of_nat (length indices) <= num_merges ->
  train_bpe string num_merges = Raise ValueError.
Proof.
  intros Henc Hpos Hlen. unfold train_bpe. rewrite Henc. cbn [bind].
  destruct (train_loop _ 0 (init_locals indices)) as [st|e] eqn:Hrun.
  - exfalso. destruct (train_loop_length _ _ _ _ Hrun) as (Hle & Hpow & Htwo).
    cbn [init_locals l_indices] in *.
    assert (Hst : length (l_indices st) = O) by lia.
    rewrite Hst in Hpow. lia.
  - cbn [bind].
    destruct (train_loop_raises (Z.to_nat num_merges) 0
                (init_locals indices) e) as [-> _];
      [|assumption|reflexivity].
    apply train_inv_init. eapply str_encode_bytes; eauto.
Qed.

Lemma train_bpe_too_many_merges_witness :
  str_encode (str_of "aaaa"%string) = Ok [97; 97; 97; 97]
  /\ 0 < 4
  /\ Z.of_nat (length [97; 97; 97; 97]) <= 4
  /\ train_bpe (str_of "aaaa"%string) 4 = Raise ValueError.
Proof.
  assert (H1 : str_encode (str_of "aaaa"%string) = Ok [97; 97; 97; 97])
    by (vm_compute; reflexivity).
  assert (H2 : 0 < 4) by lia.
  assert (H3 : Z.of_nat (length [97; 97; 97; 97]) <= 4) by (simpl; lia).
  split; [exact H1|]. split; [exact H2|]. split; [exact H3|].
  exact (train_bpe_too_many_merges _ _ 4 H1 H2 H3).
Defined.

(** X7: a pass at most halves the number of tokens, so a corpus of at least
    [2 ^ num_merges] bytes allows all the passes: [train_bpe] returns. *)
Theorem train_bpe_enough_bytes string indices num_merges :
  str_encode string = Ok indices ->
  (2 ^ Z.to_nat num_merges <= length indices)%nat ->
  exists params, train_bpe string num_merges = Ok params.
Proof.
  intros Henc Hlen. unfold train_bpe. rewrite Henc. cbn [bind].
  destruct (train_loop _ 0 (init_locals indices)) as [st|e] eqn:Hrun;
    [cbn [bind]; eauto|].
  exfalso.
  destruct (train_loop_raises (Z.to_nat num_merges) 0
              (init_locals indices) e) as
    (_ & j & st_j & Hj & Hrun_j & Hshort); [|assumption|].
  { apply train_inv_init. eapply str_encode_bytes; eauto. }
  destruct (train_loop_length _ _ _ _ Hrun_j) as (_ & Hpow & _).
  cbn [init_locals l_indices] in Hpow.
  assert (Hlt : (2 ^ j < 2 ^ Z.to_nat num_merges)%nat)
    by (apply Nat.pow_lt_mono_r; lia).
  nia.
Qed.

Lemma train_bpe_enough_bytes_witness :
  str_encode (str_of "aaaa"%string) = Ok [97; 97; 97; 97]
  /\ (2 ^ Z.to_nat 2 <= length [97; 97; 97; 97]%Z)%nat
  /\ exists params, train_bpe (str_of "aaaa"%string) 2 = Ok params.
Proof.
  assert (H1 : str_encode (str_of "aaaa"%string) = Ok [97; 97; 97; 97])
    by (vm_compute; reflexivity).
  assert (H2 : (2 ^ Z.to_nat 2 <= length [97; 97; 97; 97]%Z)%nat)
    by (simpl; lia).
  split; [exact H1|]. split; [exact H2|].
  exact (train_bpe_enough_bytes _ _ 2 H1 H2).
Defined.

(** ** [train_bpe]: runs of different lengths on one corpus *)

Lemma train_loop_extends n : forall i st st',
  train_inv i st -> train_loop n i st = Ok st' ->
  exists entries, l_vocab st' = l_vocab st ++ entries.
Proof.
  induction n as [|n IH]; intros i st st' Hinv Hrun.
  - injection Hrun as <-. exists []. now rewrite app_nil_r.
  - rewrite train_loop_S in Hrun.
    destruct (train_step i st) as [st1|e] eqn:Hstep; [|discriminate].
    cbn [bind] in Hrun.
    destruct (IH _ _ _ (train_step_inv _ _ _ Hinv Hstep) Hrun) as [es Hes].
    destruct (train_step_Ok _ _ _ Hstep)
      as (a & b & va & vb & Hsel & _ & _ & ->).
    destruct (selected_pair_fresh _ _ _ _ Hinv Hsel) as (_ & _ & _ & Hnew).
    cbn [l_vocab] in Hes. rewrite (set_fresh (l_vocab st)) in Hes by assumption.
    rewrite <- app_assoc in Hes. eauto.
Qed.

(** X8: training is incremental.  When [train_bpe] returns for some number
    of merges, it returns for every smaller number on the same corpus, and
    the smaller run's rules and vocabulary are the first entries, in order,
    of the larger run's. *)
Theorem train_bpe_prefix string k1 k2 params2 :
  k1 <= k2 ->
  train_bpe string k2 = Ok params2 ->
  exists params1 rules entries,
    train_bpe string k1 = Ok params1
    /\ merges params2 = merges params1 ++ rules
    /\ vocab params2 = vocab params1 ++ entries.
Proof.
  intros Hk Htrain.
  destruct (train_bpe_Ok _ _ _ Htrain) as (indices & st2 & Henc & Hrun & ->).
  destruct (train_loop_prefix _ (Z.to_nat k1) _ _ _ Hrun)
    as (st1 & Hrun1 & Hrest); [lia|].
  pose proof (train_inv_run _ _ _ _ Henc Hrun1) as Hinv1.
  destruct (train_loop_inv _ _ _ _ Hinv1 Hrest) as (_ & _ & Hm & _).
  destruct (train_loop_extends _ _ _ _ Hinv1 Hrest) as [entries Hv].
  exists {| vocab := l_vocab st1; merges := l_merges st1 |}.
  eexists. exists entries. cbn [vocab merges].
  split; [|split; [exact Hm | exact Hv]].
  unfold train_bpe. rewrite Henc. cbn [bind]. now rewrite Hrun1.
Qed.

Lemma train_bpe_prefix_witness :
  1 <= 3
  /\ train_bpe cat_corpus 3 = Ok cat_params
  /\ exists params1 rules entries,
       train_bpe cat_corpus 1 = Ok params1
       /\ merges cat_params = merges params1 ++ rules
       /\ vocab cat_params = vocab params1 ++ entries.
Proof.
  assert (H1 : 1 <= 3) by lia.
  assert (H2 : train_bpe cat_corpus 3 = Ok cat_params)
    by (vm_compute; reflexivity).
  split; [exact H1|]. split; [exact H2|].
  exact (train_bpe_prefix cat_corpus 1 3 cat_params H1 H2).
Defined.

(** ** [BPETokenizer.encode]: its tokens *)

Lemma train_loop_indices n : forall i st st',
  train_loop n i st = Ok st' ->
  l_indices st' = apply_rules (learned n i st) (l_indices st).
Proof.
  induction n as [|n IH]; intros i st st' Hrun.
  - now injection Hrun as <-.
  - rewrite train_loop_S in Hrun. cbn [learned].
    destruct (train_step i st) as [st1|e] eqn:Hstep; [|discriminate].
    cbn [bind] in Hrun. rewrite (IH _ _ _ Hrun).
    destruct (train_step_Ok _ _ _ Hstep)
      as (a & b & va & vb & Hsel & _ & _ & ->).
    rewrite Hsel. reflexivity.
Qed.

(** X9: encoding the training corpus with the tokenizer trained on it
    gives the token sequence training ended with. *)
Theorem encode_corpus_is_training_result string num_merges params :
  train_bpe string num_merges = Ok params ->
  exists indices st,
    str_encode string = Ok indices
    /\ train_loop (Z.to_nat num_merges) 0 (init_locals indices) = Ok st
    /\ BPETokenizer.encode params string = Ok (l_indices st).
Proof.
  intros Htrain.
  destruct (train_bpe_Ok _ _ _ Htrain) as (indices & st & Henc & Hrun & ->).
  exists indices, st. split; [assumption|]. split; [assumption|].
  rewrite encode_eq, Henc. cbn [bind merges]. f_equal.
  pose proof (str_encode_bytes _ _ Henc) as Hb.
  destruct (train_loop_inv _ 0 _ _ (train_inv_init _ Hb) Hrun)
    as (_ & _ & Hm & _).
  unfold Dict.items. rewrite Hm. cbn [init_locals l_merges app].
  symmetry. exact (train_loop_indices _ _ _ _ Hrun).
Qed.

Lemma encode_corpus_is_training_result_witness :
  train_bpe cat_corpus 3 = Ok cat_params
  /\ BPETokenizer.encode cat_params cat_corpus = Ok (l_indices cat_locals).
Proof.
  assert (H : train_bpe cat_corpus 3 = Ok cat_params)
    by (vm_compute; reflexivity).
  split; [exact H|].
  destruct (encode_corpus_is_training_result cat_corpus 3 cat_params H)
    as (indices & st & Henc & Hrun & Hres).
  rewrite Hres. f_equal. f_equal.
  assert (Hc : str_encode cat_corpus = Ok cat_corpus)
    by (vm_compute; reflexivity).
  rewrite Hc in Henc. injection Henc as <-.
  assert (Hl : train_loop (Z.to_nat 3) 0 (init_locals cat_corpus)
               = Ok cat_locals) by (vm_compute; reflexivity).
  rewrite Hl in Hrun. now injection Hrun as <-.
Defined.

Lemma apply_rules_Forall (P : Z -> Prop) rules :
  Forall (fun item => P (snd item)) rules ->
  forall indices, Forall P indices -> Forall P (apply_rules rules indices).
Proof.
  induction 1 as [|[p n] rules Hn Hrules IH]; intros indices Hl; simpl;
    [assumption|].
  apply IH. rewrite merge_eq_ref. now apply merge_ref_Forall.
Qed.

(** X10: with trained parameters, every token [encode] returns is below
    [256 + num_merges] and is a key of the vocabulary, whatever the string
    encoded. *)
Theorem encode_tokens_known corpus num_merges params s indices :
  0 <= num_merges ->
  train_bpe corpus num_merges = Ok params ->
  BPETokenizer.encode params s = Ok indices ->
  Forall (fun t => 0 <= t < 256 + num_merges
                   /\ Dict.get (vocab params) t <> None) indices.
Proof.
  intros Hk Htrain Henc.
  destruct (train_bpe_Ok _ _ _ Htrain) as (ind0 & st & Henc0 & Hrun & ->).
  pose proof (train_inv_run _ _ _ _ Henc0 Hrun) as Hinv.
  rewrite Z2Nat.id in Hinv by assumption.
  rewrite encode_eq in Henc. cbn [vocab merges] in *.
  destruct (str_encode s) as [bs|e] eqn:Hs; [|discriminate].
  cbn [bind] in Henc. injection Henc as <-.
  assert (Hin : Forall (fun t => 0 <= t < 256 + num_merges)
                       (apply_rules (Dict.items (l_merges st)) bs)).
  { apply apply_rules_Forall.
    - eapply Forall_impl; [|exact (inv_rules _ _ Hinv)].
      intros [[a b] n]. simpl. lia.
    - eapply Forall_impl; [|exact (str_encode_bytes _ _ Hs)].
      intros t Ht. simpl in Ht. lia. }
  eapply Forall_impl; [|exact Hin].
  intros t Ht. split; [assumption|].
  destruct (get_in_range _ _ t (inv_vocab_keys _ _ Hinv) Ht) as [v ->].
  discriminate.
Qed.

Lemma encode_tokens_known_witness :
  0 <= 3
  /\ train_bpe cat_corpus 3 = Ok cat_params
  /\ BPETokenizer.encode cat_params fox =
     Ok [258; 113; 117; 105; 99; 107; 32; 98; 114; 111; 119; 110; 32; 102;
         111; 120]
  /\ Forall (fun t => 0 <= t < 256 + 3
                      /\ Dict.get (vocab cat_params) t <> None)
            [258; 113; 117; 105; 99; 107; 32; 98; 114; 111; 119; 110; 32;
             102; 111; 120].
Proof.
  assert (H1 : 0 <= 3) by lia.
  assert (H2 : train_bpe cat_corpus 3 = Ok cat_params)
    by (vm_compute; reflexivity).
  assert (H3 : BPETokenizer.encode cat_params fox =
               Ok [258; 113; 117; 105; 99; 107; 32; 98; 114; 111; 119; 110;
                   32; 102; 111; 120]) by (vm_compute; reflexivity).
  split; [exact H1|]. split; [exact H2|]. split; [exact H3|].
  exact (encode_tokens_known cat_corpus 3 cat_params fox _ H1 H2 H3).
Defined.

Lemma utf8_encode_char_length c b :
  utf8_encode_char c = Some b -> (1 <= length b <= 4)%nat.
Proof.
  unfold utf8_encode_char.
  repeat match goal with
         | |- (if ?t then _ else _) = _ -> _ => destruct t
         end; some_inj; simpl; lia.
Qed.

Lemma str_encode_length s bs :
  str_encode s = Ok bs -> (length s <= length bs <= 4 * length s)%nat.
Proof.
  revert bs; induction s as [|c s IH]; simpl; intros bs.
  - intros [= <-]. simpl. lia.
  - destruct (utf8_encode_char c) as [b|] eqn:Ec; simpl; [|discriminate].
    destruct (str_encode s) as [bs'|] eqn:Es; simpl; [|discriminate].
    intros [= <-]. rewrite length_app.
    pose proof (utf8_encode_char_length _ _ Ec). specialize (IH _ eq_refl).
    lia.
Qed.

Lemma apply_rules_length rules : forall indices,
  (length (apply_rules rules indices) <= length indices)%nat
  /\ (apply_rules rules indices = [] <-> indices = []).
Proof.
  induction rules as [|[p n] rules IH]; intros indices; simpl;
    [split; [lia | tauto]|].
  destruct (IH (merge indices p n)) as [Hle Hnil].
  rewrite merge_eq_ref in *.
  pose proof (merge_ref_length (fst p) (snd p) n indices) as [Hm1 Hm2].
  split; [lia|]. rewrite Hnil. split; intros H0.
  - rewrite H0 in Hm2. destruct indices; [reflexivity | simpl in Hm2; lia].
  - now subst.
Qed.

(** X11: whatever the parameters, [encode] returns at most as many tokens
    as the string has UTF-8 bytes (the compression ratio is at least 1), and
    it returns no token only for the empty string. *)
Theorem encode_length params string string_bytes indices :
  str_encode string = Ok string_bytes ->
  BPETokenizer.encode params string = Ok indices ->
  (length indices <= length string_bytes)%nat
  /\ (indices = [] <-> string = []).
Proof.
  intros Hs Henc. rewrite encode_eq, Hs in Henc. cbn [bind] in Henc.
  injection Henc as <-.
  destruct (apply_rules_length (Dict.items (merges params)) string_bytes)
    as [Hle Hnil].
  split; [assumption|]. rewrite Hnil.
  pose proof (str_encode_length _ _ Hs) as Hlen.
  split; intros ->; simpl in Hlen.
  - destruct string; [reflexivity | simpl in Hlen; lia].
  - destruct string_bytes; [reflexivity | simpl in Hlen; lia].
Qed.

Lemma encode_length_witness :
  str_encode fox = Ok fox
  /\ BPETokenizer.encode cat_params fox =
     Ok [258; 113; 117; 105; 99; 107; 32; 98; 114; 111; 119; 110; 32; 102;
         111; 120]
  /\ (length [258; 113; 117; 105; 99; 107; 32; 98; 114; 111; 119; 110; 32;
              102; 111; 120]%Z <= length fox)%nat.
Proof.
  assert (H1 : str_encode fox = Ok fox) by (vm_compute; reflexivity).
  assert (H2 : BPETokenizer.encode cat_params fox =
               Ok [258; 113; 117; 105; 99; 107; 32; 98; 114; 111; 119; 110;
                   32; 102; 111; 120]) by (vm_compute; reflexivity).
  split; [exact H1|]. split; [exact H2|].
  exact (proj1 (encode_length cat_params fox fox _ H1 H2)).
Defined.

(** ** The entries of a trained vocabulary *)

Lemma get_In (d : Dict.t Z (list Z)) k v :
  Dict.get d k = Some v -> In (k, v) d.
Proof.
  induction d as [|[k' v'] d IH]; simpl; [discriminate|].
  unfold key_eqb, PyEq_Z. destruct (Z.eqb_spec k' k) as [->|Hne].
  - intros [= ->]. now left.
  - intros Hg. right. auto.
Qed.

Lemma init_vocab_entries : Forall entry_ok init_vocab.
Proof.
  rewrite init_vocab_eq. apply Forall_forall. intros [k v] Hin.
  apply in_map_iff in Hin as (x & [= <- <-] & Hx). apply In_range in Hx.
  unfold entry_ok. cbn [fst snd length]. repeat split; try lia.
  repeat constructor; lia.
Qed.

Lemma train_step_entries i st st' :
  train_inv i st -> Forall entry_ok (l_vocab st) ->
  train_step i st = Ok st' -> Forall entry_ok (l_vocab st').
Proof.
  intros Hinv Hok Hstep.
  destruct (train_step_Ok _ _ _ Hstep)
    as (a & b & va & vb & Hsel & Ha & Hb & ->).
  destruct (selected_pair_fresh _ _ _ _ Hinv Hsel) as (_ & _ & _ & Hnew).
  cbn [l_vocab]. rewrite (set_fresh (l_vocab st)) by assumption.
  apply Forall_app. split; [assumption|]. constructor; [|constructor].
  rewrite Forall_forall in Hok.
  destruct (Hok _ (get_In _ _ _ Ha)) as (Hba & Hla & _).
  destruct (Hok _ (get_In _ _ _ Hb)) as (Hbb & Hlb & _).
  unfold entry_ok in *. cbn [fst snd] in *. rewrite length_app.
  split; [now apply Forall_app|]. lia.
Qed.

Lemma train_loop_entries n : forall i st st',
  train_inv i st -> Forall entry_ok (l_vocab st) ->
  train_loop n i st = Ok st' -> Forall entry_ok (l_vocab st').
Proof.
  induction n as [|n IH]; intros i st st' Hinv Hok Hrun.
  - now injection Hrun as <-.
  - rewrite train_loop_S in Hrun.
    destruct (train_step i st) as [st1|e] eqn:Hstep; [|discriminate].
    cbn [bind] in Hrun.
    eapply (IH (i + 1) st1); eauto using train_step_inv, train_step_entries.
Qed.

(** X12: every entry of a trained vocabulary is a non-empty string of
    bytes, of at least two bytes for a token from 256 on; hence a sequence
    of known tokens expands to at least as many bytes as it has tokens. *)
Theorem trained_vocab_entries string num_merges params :
  train_bpe string num_merges = Ok params ->
  Forall entry_ok (vocab params)
  /\ forall indices,
       (forall t, In t indices -> Dict.get (vocab params) t <> None) ->
       (length indices <= length (expand (vocab params) indices))%nat.
Proof.
  intros Htrain.
  destruct (train_bpe_Ok _ _ _ Htrain) as (ind0 & st & Henc & Hrun & ->).
  cbn [vocab].
  assert (Hok : Forall entry_ok (l_vocab st)).
  { apply (train_loop_entries (Z.to_nat num_merges) 0 (init_locals ind0));
      [| |assumption].
    - apply train_inv_init. eapply str_encode_bytes; eauto.
    - exact init_vocab_entries. }
  split; [assumption|].
  intros indices Hall. unfold expand.
  induction indices as [|t l IH]; [simpl; lia|].
  cbn [flat_map]. rewrite length_app.
  assert (IH' : (length l <=
                 length (flat_map (fun t => match Dict.get (l_vocab st) t with
                                            | Some b => b
                                            | None => []
                                            end) l))%nat)
    by (apply IH; intros t' Ht'; apply Hall; now right).
  destruct (Dict.get (l_vocab st) t) as [b|] eqn:Hg.
  - rewrite Forall_forall in Hok.
    destruct (Hok _ (get_In _ _ _ Hg)) as (_ & Hlen & _).
    cbn [snd] in Hlen. simpl length. lia.
  - exfalso. apply (Hall t); [now left | assumption].
Qed.

Lemma trained_vocab_entries_witness :
  train_bpe cat_corpus 3 = Ok cat_params
  /\ Forall entry_ok (vocab cat_params).
Proof.
  assert (H : train_bpe cat_corpus 3 = Ok cat_params)
    by (vm_compute; reflexivity).
  split; [exact H|].
  exact (proj1 (trained_vocab_entries cat_corpus 3 cat_params H)).
Defined.

(** ** [BPETokenizer.decode] on a concatenation *)

Lemma bytes_join_app x y :
  bytes_join (x ++ y) =
  (a <- bytes_join x ;; b <- bytes_join y ;; Ok (a ++ b)).
Proof.
  induction x as [|[bx|] x IH]; simpl.
  - destruct (bytes_join y); reflexivity.
  - rewrite IH. destruct (bytes_join x); simpl; [|reflexivity].
    destruct (bytes_join y); simpl; [|reflexivity].
    now rewrite app_assoc.
  - reflexivity.
Qed.

Lemma str_encode_app s1 s2 b1 b2 :
  str_encode s1 = Ok b1 -> str_encode s2 = Ok b2 ->
  str_encode (s1 ++ s2) = Ok (b1 ++ b2).
Proof.
  revert b1; induction s1 as [|c s1 IH]; simpl; intros b1.
  - intros [= <-] H2. exact H2.
  - destruct (utf8_encode_char c) as [b|]; simpl; [|discriminate].
    destruct (str_encode s1) as [bs|]; simpl; [|discriminate].
    intros [= <-] H2. rewrite (IH bs eq_refl H2). simpl.
    now rewrite app_assoc.
Qed.

(** X13: whatever the parameters, when two token sequences both decode,
    their concatenation decodes to the concatenation of the two strings. *)
Theorem decode_app params indices1 indices2 s1 s2 :
  BPETokenizer.decode params indices1 = Ok s1 ->
  BPETokenizer.decode params indices2 = Ok s2 ->
  BPETokenizer.decode params (indices1 ++ indices2) = Ok (s1 ++ s2).
Proof.
  unfold BPETokenizer.decode. rewrite map_app, bytes_join_app.
  destruct (bytes_join (map (Dict.get (vocab params)) indices1)) as [b1|];
    [|discriminate].
  destruct (bytes_join (map (Dict.get (vocab params)) indices2)) as [b2|];
    [|discriminate].
  cbn [bind]. intros H1 H2.
  apply bytes_decode_str_encode, str_encode_app;
    now apply str_encode_bytes_decode.
Qed.

Lemma decode_app_witness :
  BPETokenizer.decode cat_params [258; 99] = Ok [116; 104; 101; 32; 99]
  /\ BPETokenizer.decode cat_params [97; 116] = Ok [97; 116]
  /\ BPETokenizer.decode cat_params ([258; 99] ++ [97; 116])
     = Ok ([116; 104; 101; 32; 99] ++ [97; 116]).
Proof.
  assert (H1 : BPETokenizer.decode cat_params [258; 99]
               = Ok [116; 104; 101; 32; 99]) by (vm_compute; reflexivity).
  assert (H2 : BPETokenizer.decode cat_params [97; 116] = Ok [97; 116])
    by (vm_compute; reflexivity).
  split; [exact H1|]. split; [exact H2|].
  exact (decode_app cat_params _ _ _ _ H1 H2).
Defined.

(** ** [ByteTokenizer] *)

Lemma py_bytes_Ok indices :
  Forall (fun i => 0 <= i < 256) indices -> py_bytes indices = Ok indices.
Proof.
  induction 1 as [|i l Hi Hl IH]; simpl; [reflexivity|].
  destruct (Z.leb_spec 0 i), (Z.ltb_spec i 256); try lia. simpl.
  now rewrite IH.
Qed.

Lemma py_bytes_inv indices :
  (forall bs, py_bytes indices = Ok bs ->
              bs = indices /\ Forall (fun i => 0 <= i < 256) indices)
  /\ (forall e, py_bytes indices = Raise e ->
                e = ValueError
                /\ exists i, In i indices /\ ~ 0 <= i < 256).
Proof.
  induction indices as [|i l [IHok IHr]]; simpl.
  - split; [intros bs [= <-]; auto | discriminate].
  - destruct (Z.leb_spec 0 i), (Z.ltb_spec i 256); simpl;
      try (split; [discriminate|];
           intros e [= <-]; split; [reflexivity|];
           exists i; split; [now left | lia]).
    destruct (py_bytes l) as [bs'|e'] eqn:Hl; simpl.
    + destruct (IHok _ eq_refl) as [-> Hall].
      split; [|discriminate]. intros bs [= <-]. split; [reflexivity|].
      constructor; [lia | assumption].
    + split; [discriminate|]. intros e [= <-].
      destruct (IHr _ eq_refl) as (-> & j & Hj & Hout).
      split; [reflexivity|]. exists j. split; [now right | assumption].
Qed.

Lemma str_encode_raises_iff s :
  is_str s ->
  (str_encode s = Raise UnicodeEncodeError
   <-> exists c, In c s /\ is_surrogate c = true).
Proof.
  intros Hs. split.
  - intros Hr.
    destruct (Forall_Exists_dec (fun c => is_surrogate c = false)
                (fun c => bool_dec (is_surrogate c) false) s) as [Hall|Hex].
    + destruct (str_encode_returns _ Hs Hall) as [bs Hbs]. congruence.
    + apply Exists_exists in Hex as (c & Hin & Hc). exists c.
      split; [assumption|]. now destruct (is_surrogate c).
  - intros (c & Hin & Hc).
    destruct (str_encode s) as [bs|e] eqn:He;
      [|now rewrite (str_encode_exn _ _ He)].
    exfalso. clear Hs. revert bs He.
    induction s as [|c' s IH]; [destruct Hin|]. simpl. intros bs.
    destruct (utf8_encode_char c') as [b|] eqn:Ec; simpl; [|discriminate].
    destruct (str_encode s) as [bs'|]; simpl; [|discriminate].
    intros _. destruct Hin as [->|Hin]; [|eauto].
    unfold utf8_encode_char in Ec. rewrite Hc in Ec.
    unfold is_surrogate in Hc. bool_to_prop.
    repeat match type of Ec with
           | (if ?t then _ else _) = _ => destruct t eqn:?
           end; try discriminate; bool_to_prop; lia.
Qed.

(** X14: [ByteTokenizer] round trip.  Whenever [encode] returns, [decode]
    of its result returns the string, and the result has between one and
    four tokens for each character; on a string, [encode] raises exactly
    when the string holds a surrogate code point, and then it raises
    [UnicodeEncodeError]. *)
Theorem byte_tokenizer_roundtrip string :
  (forall indices,
      ByteTokenizer.encode string = Ok indices ->
      ByteTokenizer.decode indices = Ok string
      /\ (length string <= length indices <= 4 * length string)%nat)
  /\ (forall e, ByteTokenizer.encode string = Raise e ->
                e = UnicodeEncodeError)
  /\ (is_str string ->
      (ByteTokenizer.encode string = Raise UnicodeEncodeError
       <-> exists c, In c string /\ is_surrogate c = true)).
Proof.
  unfold ByteTokenizer.encode, ByteTokenizer.decode.
  split; [|split].
  - intros indices. destruct (str_encode string) as [bs|] eqn:Hs;
      [|discriminate].
    cbn [bind]. rewrite map_id. intros [= <-].
    rewrite (py_bytes_Ok _ (str_encode_bytes _ _ Hs)). cbn [bind].
    split; [now apply bytes_decode_str_encode | now apply str_encode_length].
  - intros e. destruct (str_encode string) as [bs|e'] eqn:Hs;
      [discriminate|].
    intros [= <-]. now apply (str_encode_exn string).
  - intros Hstr. rewrite <- (str_encode_raises_iff _ Hstr).
    destruct (str_encode string); simpl; split; congruence.
Qed.

(** X15: [ByteTokenizer.decode] is the inverse of [encode] as a relation:
    it returns [s] exactly when [encode(s)] is its input.  It raises
    [ValueError] exactly when some index is outside [range(256)], and
    otherwise [UnicodeDecodeError] exactly when the bytes are not valid
    UTF-8. *)
Theorem byte_tokenizer_decode_outcome indices :
  (forall s, ByteTokenizer.decode indices = Ok s <->
             ByteTokenizer.encode s = Ok indices)
  /\ (ByteTokenizer.decode indices = Raise ValueError <->
      exists i, In i indices /\ ~ 0 <= i < 256)
  /\ (ByteTokenizer.decode indices = Raise UnicodeDecodeError <->
      Forall (fun i => 0 <= i < 256) indices /\ ~ valid_utf8 indices).
Proof.
  unfold ByteTokenizer.encode, ByteTokenizer.decode, valid_utf8.
  destruct (py_bytes_inv indices) as [Hok Hraise].
  assert (Henc : forall s, (string_bytes <- str_encode s ;;
                            Ok (map (fun b => b) string_bytes)) = Ok indices
                           <-> str_encode s = Ok indices).
  { intros s. destruct (str_encode s); simpl; [rewrite map_id|]; tauto. }
  destruct (py_bytes indices) as [bs|e] eqn:Hp; cbn [bind].
  - destruct (Hok _ eq_refl) as [-> Hall]. split; [|split].
    + intros s. rewrite Henc. apply bytes_decode_Ok_iff.
    + split.
      * intros Hd. apply bytes_decode_exn in Hd. discriminate.
      * intros (i & Hin & Hout). rewrite Forall_forall in Hall.
        specialize (Hall i Hin). simpl in Hall. lia.
    + split.
      * intros Hd. split; [assumption|]. intros [s Hs].
        apply bytes_decode_str_encode in Hs. congruence.
      * intros [_ Hinvalid]. destruct (bytes_decode indices) as [s|e] eqn:Hd.
        -- exfalso. apply Hinvalid. exists s.
           now apply str_encode_bytes_decode.
        -- now rewrite (bytes_decode_exn _ _ Hd).
  - destruct (Hraise _ eq_refl) as (-> & i & Hin & Hout). split; [|split].
    + intros s. rewrite Henc. split; [discriminate|]. intros Hs.
      pose proof (str_encode_bytes _ _ Hs) as Hall.
      rewrite Forall_forall in Hall. specialize (Hall i Hin). simpl in Hall.
      lia.
    + split; [eauto | reflexivity].
    + split; [discriminate|]. intros [Hall _].
      rewrite Forall_forall in Hall. specialize (Hall i Hin). simpl in Hall.
      lia.
Qed.

(** X16: a [BPETokenizer] trained with no merge is the [ByteTokenizer]:
    [encode] is the same function, and [decode] is the same on every
    sequence of indices in [range(256)]. *)
Theorem bpe_without_merges_is_byte_tokenizer corpus num_merges params :
  num_merges <= 0 ->
  train_bpe corpus num_merges = Ok params ->
  (forall s, BPETokenizer.encode params s = ByteTokenizer.encode s)
  /\ (forall indices,
        Forall (fun i => 0 <= i < 256) indices ->
        BPETokenizer.decode params indices = ByteTokenizer.decode indices).
Proof.
  intros Hk Htrain.
  destruct (train_bpe_Ok _ _ _ Htrain) as (ind0 & st & Henc & Hrun & ->).
  replace (Z.to_nat num_merges) with O in Hrun by lia.
  injection Hrun as <-. cbn [init_locals l_vocab l_merges].
  pose proof (train_inv_init _ (str_encode_bytes _ _ Henc)) as Hinv.
  split.
  - intros s. rewrite encode_eq. unfold ByteTokenizer.encode.
    cbn [merges Dict.items Dict.empty apply_rules].
    destruct (str_encode s); simpl; [now rewrite map_id | reflexivity].
  - intros indices Hall.
    unfold BPETokenizer.decode, ByteTokenizer.decode. cbn [vocab].
    rewrite (py_bytes_Ok _ Hall).
    pose proof (inv_vocab_base _ _ Hinv) as Hbase.
    cbn [init_locals l_vocab] in Hbase.
    now rewrite (bytes_join_base _ _ Hbase Hall).
Qed.

Lemma bpe_without_merges_is_byte_tokenizer_witness :
  0 <= 0
  /\ train_bpe cat_corpus 0
     = Ok {| vocab := init_vocab; merges := Dict.empty |}
  /\ BPETokenizer.encode {| vocab := init_vocab; merges := Dict.empty |} fox
     = ByteTokenizer.encode fox.
Proof.
  assert (H1 : 0 <= 0) by lia.
  assert (H2 : train_bpe cat_corpus 0
               = Ok {| vocab := init_vocab; merges := Dict.empty |})
    by (vm_compute; reflexivity).
  split; [exact H1|]. split; [exact H2|].
  exact (proj1 (bpe_without_merges_is_byte_tokenizer cat_corpus 0 _ H1 H2)
               fox).
Defined.

(** ** [CharacterTokenizer] *)

Lemma character_decode_inv indices : forall s,
  CharacterTokenizer.decode indices = Some s <->
  is_str indices /\ s = indices.
Proof.
  unfold is_str.
  induction indices as [|i l IH]; intros s; simpl.
  - split; [intros [= <-]; split; [constructor | reflexivity]|].
    intros [_ ->]. reflexivity.
  - unfold CharacterTokenizer.chr.
    destruct (Z.leb_spec 0 i), (Z.ltb_spec i 0x110000); simpl;
      try (split; [discriminate|]; intros [Hf _];
           inversion Hf; subst; lia).
    destruct (CharacterTokenizer.decode l) as [s'|].
    + destruct (proj1 (IH s') eq_refl) as [Hl ->]. split.
      * intros [= <-]. split; [constructor; [lia | assumption] | reflexivity].
      * intros [_ ->]. reflexivity.
    + split; [discriminate|]. intros [Hf _]. inversion Hf; subst.
      assert (Hnone : None = Some l) by (apply IH; auto). discriminate.
Qed.

(** X17: [CharacterTokenizer.decode] returns exactly on the sequences of
    code points, that is when every index is in [range(0x110000)], and then
    returns the sequence read as a string; so [decode(encode(s))] is [s] for
    every string, lone surrogates included, and [encode(decode(indices))] is
    [indices] whenever [decode] returns. *)
Theorem character_tokenizer_roundtrip :
  (forall indices s,
      CharacterTokenizer.decode indices = Some s <->
      is_str indices /\ s = indices)
  /\ (forall string,
        is_str string ->
        CharacterTokenizer.decode (CharacterTokenizer.encode string)
        = Some string)
  /\ (forall indices s,
        CharacterTokenizer.decode indices = Some s ->
        CharacterTokenizer.encode s = indices).
Proof.
  assert (Henc : forall s, CharacterTokenizer.encode s = s).
  { intros s. unfold CharacterTokenizer.encode, CharacterTokenizer.ord.
    apply map_id. }
  split; [exact character_decode_inv|]. split.
  - intros string Hs. rewrite Henc. now apply character_decode_inv.
  - intros indices s Hd. apply character_decode_inv in Hd as [_ ->].
    apply Henc.
Qed.

(** ** [get_compression_ratio] *)

(** X18: the compression ratio of a [BPETokenizer] encoding, whatever the
    parameters.  For the empty string the call raises [ZeroDivisionError];
    for any other string it returns the quotient of the number of bytes by
    the number of tokens, a numerator at least as large as the positive
    denominator. *)
Theorem bpe_compression_ratio (float : Type) (truediv : Z -> Z -> float)
    params string string_bytes indices :
  str_encode string = Ok string_bytes ->
  BPETokenizer.encode params string = Ok indices ->
  (string = [] ->
   get_compression_ratio truediv string indices = RatioZeroDivisionError)
  /\ (string <> [] ->
      get_compression_ratio truediv string indices
      = RatioOk (truediv (Z.of_nat (length string_bytes))
                         (Z.of_nat (length indices)))
      /\ 0 < Z.of_nat (length indices) <= Z.of_nat (length string_bytes)).
Proof.
  intros Hs Henc. unfold get_compression_ratio. rewrite Hs.
  rewrite encode_eq, Hs in Henc. cbn [bind] in Henc. injection Henc as <-.
  destruct (apply_rules_length (Dict.items (merges params)) string_bytes)
    as [Hle Hnil].
  pose proof (str_encode_length _ _ Hs) as Hlen.
  set (indices := apply_rules (Dict.items (merges params)) string_bytes) in *.
  split.
  - intros ->. simpl in Hlen.
    assert (Hb : string_bytes = [])
      by (destruct string_bytes; [reflexivity | simpl in Hlen; lia]).
    rewrite (proj2 Hnil Hb). reflexivity.
  - intros Hne.
    assert (Hpos : (0 < length indices)%nat).
    { destruct indices as [|t l] eqn:Hi; [|simpl; lia].
      exfalso. apply Hne. rewrite (proj1 Hnil eq_refl) in Hlen.
      destruct string; [reflexivity | simpl in Hlen; lia]. }
    destruct (Z.eqb_spec (Z.of_nat (length indices)) 0) as [H0|_]; [lia|].
    split; [reflexivity | lia].
Qed.

Lemma bpe_compression_ratio_witness :
  str_encode fox = Ok fox
  /\ BPETokenizer.encode cat_params fox =
     Ok [258; 113; 117; 105; 99; 107; 32; 98; 114; 111; 119; 110; 32; 102;
         111; 120]
  /\ get_compression_ratio (fun a b : Z => (a, b)) fox
       [258; 113; 117; 105; 99; 107; 32; 98; 114; 111; 119; 110; 32; 102;
        111; 120]
     = RatioOk (19, 16).
Proof.
  assert (H1 : str_encode fox = Ok fox) by (vm_compute; reflexivity).
  assert (H2 : BPETokenizer.encode cat_params fox =
               Ok [258; 113; 117; 105; 99; 107; 32; 98; 114; 111; 119; 110;
                   32; 102; 111; 120]) by (vm_compute; reflexivity).
  split; [exact H1|]. split; [exact H2|].
  assert (Hne : fox <> []) by (vm_compute; discriminate).
  exact (proj1 (proj2 (bpe_compression_ratio (Z * Z) (fun a b => (a, b))
                         cat_params fox fox _ H1 H2) Hne)).
Defined.

(** X19: the compression ratio of the two baseline tokenizers on a
    non-empty string that encodes.  For [ByteTokenizer] it is the quotient
    of a positive number by itself; for [CharacterTokenizer] it is the
    quotient of the number of bytes by the number of characters, the first
    between one and four times the second. *)
Theorem baseline_compression_ratio (float : Type) (truediv : Z -> Z -> float)
    string string_bytes :
  str_encode string = Ok string_bytes ->
  string <> [] ->
  (exists indices,
      ByteTokenizer.encode string = Ok indices
      /\ get_compression_ratio truediv string indices
         = RatioOk (truediv (Z.of_nat (length indices))
                            (Z.of_nat (length indices)))
      /\ 0 < Z.of_nat (length indices))
  /\ get_compression_ratio truediv string (CharacterTokenizer.encode string)
     = RatioOk (truediv (Z.of_nat (length string_bytes))
                        (Z.of_nat (length string)))
  /\ Z.of_nat (length string) <= Z.of_nat (length string_bytes)
     <= 4 * Z.of_nat (length string).
Proof.
  intros Hs Hne.
  pose proof (str_encode_length _ _ Hs) as Hlen.
  assert (Hpos : (0 < length string)%nat)
    by (destruct string; [congruence | simpl; lia]).
  unfold get_compression_ratio, ByteTokenizer.encode,
    CharacterTokenizer.encode, CharacterTokenizer.ord.
  rewrite Hs. cbn [bind]. rewrite !map_id. split; [|split].
  - exists string_bytes. split; [reflexivity|].
    destruct (Z.eqb_spec (Z.of_nat (length string_bytes)) 0); [lia|].
    split; [reflexivity | lia].
  - destruct (Z.eqb_spec (Z.of_nat (length string)) 0); [lia|]. reflexivity.
  - lia.
Qed.

Lemma baseline_compression_ratio_witness :
  str_encode fox = Ok fox
  /\ fox <> []
  /\ get_compression_ratio (fun a b : Z => (a, b)) fox
       (CharacterTokenizer.encode fox)
     = RatioOk (Z.of_nat (length fox), Z.of_nat (length fox)).
Proof.
  assert (H1 : str_encode fox = Ok fox) by (vm_compute; reflexivity).
  assert (H2 : fox <> []) by (vm_compute; discriminate).
  split; [exact H1|]. split; [exact H2|].
  exact (proj1 (proj2 (baseline_compression_ratio (Z * Z)
                         (fun a b => (a, b)) fox fox H1 H2))).
Defined.

(** ** [BPETokenizer.encode]: no learned pair is left *)

Lemma rules_ordered_snoc rules : forall m a b n,
  rules_ordered m rules ->
  Forall (fun item => snd item < n) rules ->
  m <= n -> a < n -> b < n ->
  rules_ordered m (rules ++ [((a, b), n)]).
Proof.
  induction rules as [|[p n'] rules IH]; intros m a b n Hord Hlt Hm Ha Hb.
  - simpl. auto.
  - destruct Hord as (Hm' & Hp1 & Hp2 & Hrest).
    inversion Hlt as [|? ? Hn' Hlt']; subst. simpl in Hn'.
    cbn [app rules_ordered]. repeat split; try assumption.
    apply IH; auto. lia.
Qed.

Lemma train_loop_ordered n : forall i st st',
  train_inv i st -> rules_ordered 256 (l_merges st) ->
  train_loop n i st = Ok st' -> rules_ordered 256 (l_merges st').
Proof.
  induction n as [|n IH]; intros i st st' Hinv Hord Hrun.
  - now injection Hrun as <-.
  - rewrite train_loop_S in Hrun.
    destruct (train_step i st) as [st1|e] eqn:Hstep; [|discriminate].
    cbn [bind] in Hrun.
    apply (IH (i + 1) st1); [eapply train_step_inv; eauto| |assumption].
    destruct (train_step_Ok _ _ _ Hstep)
      as (a & b & va & vb & Hsel & _ & _ & ->).
    destruct (selected_pair_fresh _ _ _ _ Hinv Hsel)
      as (Hra & Hrb & Hfresh & _).
    pose proof (inv_nonneg _ _ Hinv).
    cbn [l_merges]. rewrite (set_fresh (l_merges st)) by assumption.
    apply rules_ordered_snoc; try assumption; try lia.
    eapply Forall_impl; [|exact (inv_rules _ _ Hinv)].
    intros [[a' b'] n']. simpl. lia.
Qed.

Lemma apply_rules_fully_merged rules : forall m done indices,
  rules_ordered m rules ->
  Forall (fun t => t < m) indices ->
  Forall (fun p => fst p < m /\ snd p < m) done ->
  (forall p, In p done -> ~ In p (adjacent_pairs indices)) ->
  forall p, In p (done ++ map fst rules) ->
            ~ In p (adjacent_pairs (apply_rules rules indices)).
Proof.
  induction rules as [|[[a b] n] rules IH];
    intros m done indices Hord Htok Hdone Hgone p Hp.
  - simpl in *. rewrite app_nil_r in Hp. auto.
  - destruct Hord as (Hm & Ha & Hb & Hrest). cbn [fst snd] in Ha, Hb.
    cbn [apply_rules].
    apply (IH (n + 1) ((a, b) :: done)); try assumption.
    + rewrite merge_eq_ref. apply merge_ref_Forall; [lia|].
      eapply Forall_impl; [|exact Htok]. intros t Ht. simpl in Ht. lia.
    + constructor; [cbn [fst snd]; lia|].
      eapply Forall_impl; [|exact Hdone]. intros q Hq. simpl in Hq. lia.
    + intros [x y] Hq Hadj. rewrite merge_eq_ref in Hadj. cbn [fst snd] in Hadj.
      destruct Hq as [[= <- <-]|Hq].
      * destruct (merge_ref_adjacent _ _ _ _ _ _ Hadj) as [_ Hne];
          try lia. congruence.
      * rewrite Forall_forall in Hdone. specialize (Hdone _ Hq).
        cbn [fst snd] in Hdone.
        destruct (merge_ref_adjacent _ _ _ _ _ _ Hadj) as [Hold _];
          try lia.
        exact (Hgone _ Hq Hold).
    + cbn [map fst] in Hp. apply in_app_iff in Hp. apply in_app_iff.
      destruct Hp as [Hp|[<-|Hp]];
        [left; now right | left; now left | now right].
Qed.

(** X20: with trained parameters the result of [encode] is fully merged:
    whatever the string, no pair that is a key of [merges] occurs as two
    adjacent tokens of the result. *)
Theorem encode_fully_merged corpus num_merges params s indices :
  train_bpe corpus num_merges = Ok params ->
  BPETokenizer.encode params s = Ok indices ->
  forall pair, In pair (Dict.keys (merges params)) ->
               ~ In pair (adjacent_pairs indices).
Proof.
  intros Htrain Henc pair Hkey.
  destruct (train_bpe_Ok _ _ _ Htrain) as (ind0 & st & Henc0 & Hrun & ->).
  pose proof (train_inv_init _ (str_encode_bytes _ _ Henc0)) as Hinit.
  assert (Hord : rules_ordered 256 (l_merges st))
    by (apply (train_loop_ordered (Z.to_nat num_merges) 0 (init_locals ind0));
        simpl; auto).
  rewrite encode_eq in Henc. cbn [merges] in *.
  destruct (str_encode s) as [bs|e] eqn:Hs; [|discriminate].
  cbn [bind] in Henc. injection Henc as <-.
  apply (apply_rules_fully_merged (Dict.items (l_merges st)) 256 [] bs);
    try assumption.
  - eapply Forall_impl; [|exact (str_encode_bytes _ _ Hs)].
    intros t Ht. simpl in Ht. lia.
  - constructor.
  - intros p [].
Qed.

Lemma encode_fully_merged_witness :
  train_bpe cat_corpus 3 = Ok cat_params
  /\ BPETokenizer.encode cat_params cat_corpus = Ok (l_indices cat_locals)
  /\ In (116, 104) (Dict.keys (merges cat_params))
  /\ ~ In (116, 104) (adjacent_pairs (l_indices cat_locals)).
Proof.
  assert (H1 : train_bpe cat_corpus 3 = Ok cat_params)
    by (vm_compute; reflexivity).
  assert (H2 : BPETokenizer.encode cat_params cat_corpus
               = Ok (l_indices cat_locals)) by (vm_compute; reflexivity).
  assert (H3 : In (116, 104) (Dict.keys (merges cat_params)))
    by (left; reflexivity).
  split; [exact H1|]. split; [exact H2|]. split; [exact H3|].
  exact (encode_fully_merged cat_corpus 3 cat_params cat_corpus _ H1 H2
           (116, 104) H3).
Defined.

(** X21: on the training corpus every learned merge saves at least one
    token: the tokenizer trained with [num_merges] merges encodes its corpus
    into at most the number of bytes less [num_merges] tokens. *)
Theorem encode_corpus_length string string_bytes num_merges params :
  0 <= num_merges ->
  str_encode string = Ok string_bytes ->
  train_bpe string num_merges = Ok params ->
  exists indices,
    BPETokenizer.encode params string = Ok indices
    /\ Z.of_nat (length indices) + num_merges
       <= Z.of_nat (length string_bytes).
Proof.
  intros Hk Hs Htrain.
  destruct (train_bpe_Ok _ _ _ Htrain) as (ind0 & st & Henc0 & Hrun & ->).
  rewrite Hs in Henc0. injection Henc0 as <-.
  exists (l_indices st). split.
  - rewrite encode_eq, Hs. cbn [bind merges]. f_equal.
    pose proof (str_encode_bytes _ _ Hs) as Hb.
    destruct (train_loop_inv _ 0 _ _ (train_inv_init _ Hb) Hrun)
      as (_ & _ & Hm & _).
    unfold Dict.items. rewrite Hm. cbn [init_locals l_merges app].
    symmetry. exact (train_loop_indices _ _ _ _ Hrun).
  - destruct (train_loop_length _ _ _ _ Hrun) as (Hle & _).
    cbn [init_locals l_indices] in Hle. lia.
Qed.

Lemma encode_corpus_length_witness :
  0 <= 3
  /\ str_encode cat_corpus = Ok cat_corpus
  /\ train_bpe cat_corpus 3 = Ok cat_params
  /\ exists indices,
       BPETokenizer.encode cat_params cat_corpus = Ok indices
       /\ Z.of_nat (length indices) + 3 <= Z.of_nat (length cat_corpus).
Proof.
  assert (H1 : 0 <= 3) by lia.
  assert (H2 : str_encode cat_corpus = Ok cat_corpus)
    by (vm_compute; reflexivity).
  assert (H3 : train_bpe cat_corpus 3 = Ok cat_params)
    by (vm_compute; reflexivity).
  split; [exact H1|]. split; [exact H2|]. split; [exact H3|].
  exact (encode_corpus_length cat_corpus cat_corpus 3 cat_params H1 H2 H3).
Defined.
